(** * FrugalBites Vendor: the client-side logging service

    A shallow embedding of [src/config/logging.config.ts] and of the
    [Logger] class (logger service of the vendor app), with the
    properties of the specification stated over it; then further
    properties of the service, and the token functions of the consumer
    app's API client ([src/services/api.ts]).

    Conventions of the embedding.
    - JavaScript objects that are shared by reference (configuration
      objects, [Logger] instances) live in heaps indexed by references;
      a field holding an object holds its reference.
    - [undefined] is a value ([JUndefined]); an optional field that is
      absent reads as [JUndefined] or as [None].
    - An [async] method is split at its [await]s: the part that runs
      inside the call, and one continuation per awaited operation, which
      receives how that operation settled.
    - A JavaScript exception is a [Throw] completion. *)

From Stdlib Require Import ZArith Ascii String List Lia Bool.
From stdpp Require Import base option list strings gmap pretty.

Set Warnings "-register-all".

Open Scope Z_scope.

(** ** src/config/logging.config.ts *)

(** [type LogLevel = 'debug' | 'info' | 'warn' | 'error' | 'none'] *)
Inductive LogLevel := LDebug | LInfo | LWarn | LError | LNone.

#[global] Instance LogLevel_eq_dec : EqDecision LogLevel.
Proof. solve_decision. Defined.

(** The string a level is in the source. *)
Definition level_text (l : LogLevel) : string :=
  match l with
  | LDebug => "debug"
  | LInfo => "info"
  | LWarn => "warn"
  | LError => "error"
  | LNone => "none"
  end.

(** [interface LoggingConfig].  [maxStoredLogs] is an integer, of
    either sign. *)
Record LoggingConfig := mkConfig {
  minLevel : LogLevel;
  enableConsole : bool;
  enableLocalStorage : bool;
  maxStoredLogs : Z;
  enableRemoteLogging : bool;
  remoteEndpoint : option string;
  remoteMinLevel : LogLevel;
  includeDeviceInfo : bool;
  includeTimestamp : bool;
  appName : string;
}.

Definition developmentConfig : LoggingConfig :=
  {| minLevel := LDebug;
     enableConsole := true;
     enableLocalStorage := true;
     maxStoredLogs := 500;
     enableRemoteLogging := false;
     remoteEndpoint := None;
     remoteMinLevel := LError;
     includeDeviceInfo := true;
     includeTimestamp := true;
     appName := "FrugalBitesVendor" |}.

Definition productionConfig : LoggingConfig :=
  {| minLevel := LInfo;
     enableConsole := false;
     enableLocalStorage := true;
     maxStoredLogs := 200;
     enableRemoteLogging := true;
     remoteEndpoint := Some "https://your-logging-server.com/api/logs";
     remoteMinLevel := LWarn;
     includeDeviceInfo := true;
     includeTimestamp := true;
     appName := "FrugalBitesVendor" |}.

(** [__DEV__ ? developmentConfig : productionConfig] *)
Definition loggingConfig (DEV : bool) : LoggingConfig :=
  if DEV then developmentConfig else productionConfig.

#[global] Instance LoggingConfig_inhabited : Inhabited LoggingConfig :=
  populate developmentConfig.

(** [Partial<LoggingConfig>]: every field may be absent.  An absent
    field is [None]; [remoteEndpoint] is itself optional, so a present
    update of it carries an [option]. *)
Record PartialConfig := mkPartial {
  u_minLevel : option LogLevel;
  u_enableConsole : option bool;
  u_enableLocalStorage : option bool;
  u_maxStoredLogs : option Z;
  u_enableRemoteLogging : option bool;
  u_remoteEndpoint : option (option string);
  u_remoteMinLevel : option LogLevel;
  u_includeDeviceInfo : option bool;
  u_includeTimestamp : option bool;
  u_appName : option string;
}.

(** [{ ...c, ...updates }], also what [Object.assign(c, updates)] leaves
    in [c]: the fields of [updates] that are present win. *)
Definition merge (c : LoggingConfig) (u : PartialConfig) : LoggingConfig :=
  {| minLevel := default (minLevel c) (u_minLevel u);
     enableConsole := default (enableConsole c) (u_enableConsole u);
     enableLocalStorage := default (enableLocalStorage c) (u_enableLocalStorage u);
     maxStoredLogs := default (maxStoredLogs c) (u_maxStoredLogs u);
     enableRemoteLogging := default (enableRemoteLogging c) (u_enableRemoteLogging u);
     remoteEndpoint := default (remoteEndpoint c) (u_remoteEndpoint u);
     remoteMinLevel := default (remoteMinLevel c) (u_remoteMinLevel u);
     includeDeviceInfo := default (includeDeviceInfo c) (u_includeDeviceInfo u);
     includeTimestamp := default (includeTimestamp c) (u_includeTimestamp u);
     appName := default (appName c) (u_appName u) |}.

(** ** JavaScript values carried as log data *)

(** The values [data?: any] ranges over in the model: [undefined] and
    the values JSON writes.  Numbers are the integers. *)
Inductive JSValue :=
  | JUndefined
  | JNull
  | JBool (b : bool)
  | JNum (n : Z)
  | JStr (s : string)
  | JArr (items : list JSValue)
  | JObj (fields : list (string * JSValue)).

(** ToBoolean: what [v ? a : b] tests. *)
Definition truthy (v : JSValue) : bool :=
  match v with
  | JUndefined | JNull => false
  | JBool b => b
  | JNum n => negb (Z.eqb n 0)
  | JStr s => negb (String.eqb s EmptyString)
  | JArr _ | JObj _ => true
  end.

(** [v !== undefined] *)
Definition defined (v : JSValue) : bool :=
  match v with JUndefined => false | _ => true end.

#[global] Instance JSValue_eq_dec : EqDecision JSValue.
Proof.
  refine (fix go (x y : JSValue) {struct x} : Decision (x = y) :=
    match x, y with
    | JUndefined, JUndefined => left _
    | JNull, JNull => left _
    | JBool a, JBool b => cast_if (decide (a = b))
    | JNum a, JNum b => cast_if (decide (a = b))
    | JStr a, JStr b => cast_if (decide (a = b))
    | JArr a, JArr b => cast_if (@decide (a = b) (@list_eq_dec _ go a b))
    | JObj a, JObj b =>
        cast_if (@decide (a = b) (@list_eq_dec _ (@prod_eq_dec _ _ _ go) a b))
    | _, _ => right _
    end); clear go; abstract congruence.
Defined.

(** ToBoolean of a string: only the empty string is falsy. *)
Definition nonempty (s : string) : bool := negb (String.eqb s EmptyString).

(** ToBoolean of an optional string ([undefined] when absent). *)
Definition truthy_text (o : option string) : bool :=
  match o with Some s => nonempty s | None => false end.

(** *** JSON.stringify *)

Definition hex_digit (n : nat) : ascii :=
  ascii_of_nat (if (n <? 10)%nat then 48 + n else 87 + n)%nat.

(** One character inside a JSON string literal. *)
Definition quote_char (c : ascii) : string :=
  let n := nat_of_ascii c in
  if (n =? 34)%nat then "\" +:+ String c EmptyString
  else if (n =? 92)%nat then "\\"
  else if (n =? 8)%nat then "\b"
  else if (n =? 12)%nat then "\f"
  else if (n =? 10)%nat then "\n"
  else if (n =? 13)%nat then "\r"
  else if (n =? 9)%nat then "\t"
  else if (n <? 32)%nat then
    "\u00" +:+ String (hex_digit (n / 16)) (String (hex_digit (n mod 16)) EmptyString)
  else String c EmptyString.

Fixpoint quote_chars (s : string) : string :=
  match s with
  | EmptyString => EmptyString
  | String c s' => quote_char c +:+ quote_chars s'
  end.

Definition dquote : string := String (ascii_of_nat 34) EmptyString.

Definition quote (s : string) : string := dquote +:+ quote_chars s +:+ dquote.

(** [parts.join(sep)] *)
Fixpoint join (sep : string) (parts : list string) : string :=
  match parts with
  | [] => EmptyString
  | [p] => p
  | p :: rest => p +:+ sep +:+ join sep rest
  end.

(** [JSON.stringify(v)]; [None] is the result [undefined].  Inside an
    array [undefined] is written [null], inside an object the property
    is left out. *)
Fixpoint JSON_stringify (v : JSValue) : option string :=
  match v with
  | JUndefined => None
  | JNull => Some "null"
  | JBool b => Some (if b then "true" else "false")
  | JNum n => Some (pretty n)
  | JStr s => Some (quote s)
  | JArr items =>
      Some ("[" +:+ join "," (map (fun x => default "null" (JSON_stringify x)) items) +:+ "]")
  | JObj fields =>
      let member (kv : string * JSValue) : list string :=
        match JSON_stringify (snd kv) with
        | Some t => [quote (fst kv) +:+ ":" +:+ t]
        | None => []
        end in
      Some ("{" +:+ join "," (flat_map member fields) +:+ "}")
  end.

(** [JSON.parse(JSON.stringify(v))]: the value a JSON text of [v] reads
    back as.  At top level [undefined] stays [undefined] (the property
    holding it is not written). *)
Fixpoint jsonClone (v : JSValue) : JSValue :=
  match v with
  | JArr items =>
      JArr (map (fun x => match jsonClone x with JUndefined => JNull | y => y end) items)
  | JObj fields =>
      JObj (flat_map (fun kv : string * JSValue =>
                        match jsonClone (snd kv) with
                        | JUndefined => []
                        | y => [(fst kv, y)]
                        end) fields)
  | _ => v
  end.

(** *** Induction on values *)

Section JSValue_induction.
Variable P : JSValue -> Prop.
Hypothesis P_undefined : P JUndefined.
Hypothesis P_null : P JNull.
Hypothesis P_bool : forall b, P (JBool b).
Hypothesis P_num : forall n, P (JNum n).
Hypothesis P_str : forall s, P (JStr s).
Hypothesis P_arr : forall items, Forall P items -> P (JArr items).
Hypothesis P_obj : forall fields, Forall (fun kv => P (snd kv)) fields -> P (JObj fields).

(** Induction on a value, with the hypothesis for every item of an
    array and every member of an object. *)
Fixpoint JSValue_nested_ind (v : JSValue) : P v :=
  match v with
  | JUndefined => P_undefined
  | JNull => P_null
  | JBool b => P_bool b
  | JNum n => P_num n
  | JStr s => P_str s
  | JArr items =>
      P_arr items
        ((fix go (l : list JSValue) : Forall P l :=
            match l with
            | [] => @List.Forall_nil _ P
            | x :: l' => @List.Forall_cons _ P x l' (JSValue_nested_ind x) (go l')
            end) items)
  | JObj fields =>
      P_obj fields
        ((fix go (l : list (string * JSValue)) : Forall (fun kv => P (snd kv)) l :=
            match l with
            | [] => @List.Forall_nil _ _
            | kv :: l' => @List.Forall_cons _ _ kv l' (JSValue_nested_ind (snd kv)) (go l')
            end) fields)
  end.
End JSValue_induction.

(** ** The logger service: data *)

Definition LOG_STORAGE_KEY : string := "@FrugalBitesVendor:logs".

Record DeviceInfo := mkDeviceInfo {
  platform : string;
  version : string;
}.

(** [interface LogEntry].  [data] reads [JUndefined] when the entry has
    no [data] property. *)
Record LogEntry := mkEntry {
  timestamp : string;
  level : LogLevel;
  message : string;
  context : option string;
  data : JSValue;
  deviceInfo : option DeviceInfo;
}.

#[global] Instance DeviceInfo_eq_dec : EqDecision DeviceInfo.
Proof. solve_decision. Defined.

#[global] Instance LogEntry_eq_dec : EqDecision LogEntry.
Proof. solve_decision. Defined.

(** [LOG_LEVELS] *)
Definition LOG_LEVELS (l : LogLevel) : Z :=
  match l with
  | LDebug => 0
  | LInfo => 1
  | LWarn => 2
  | LError => 3
  | LNone => 4
  end.

(** A JavaScript [Error] object: [name], [message] and the optional [stack]. *)
Module Error.
Record t := mk {
  name : string;
  message : string;
  stack : option string;
}.
End Error.

(** What a [throw] carries, as far as the service can tell errors apart. *)
Inductive Exn :=
  | SyntaxError     (* JSON.parse on a text that is not JSON *)
  | StorageError    (* AsyncStorage rejecting an operation *)
  | NetworkError.   (* fetch rejecting: the request could not be made *)

Inductive Completion (A : Type) :=
  | Normal (a : A)
  | Throw (e : Exn).
Arguments Normal {A} a.
Arguments Throw {A} e.

(** How an awaited promise settles. *)
Inductive Settled (A : Type) :=
  | Fulfilled (a : A)
  | Rejected (e : Exn).
Arguments Fulfilled {A} a.
Arguments Rejected {A} e.

(** [await p] inside a [try]: a rejection is thrown at the [await]. *)
Definition await {A} (p : Settled A) : Completion A :=
  match p with
  | Fulfilled a => Normal a
  | Rejected e => Throw e
  end.

Definition bind {A B} (c : Completion A) (k : A -> Completion B) : Completion B :=
  match c with
  | Normal a => k a
  | Throw e => Throw e
  end.

Notation "'let!' x ':=' c 'in' k" := (bind c (fun x => k))
  (at level 10, x name, c at level 100, k at level 200).

(** [try { body } catch (error) { handler }] *)
Definition try_catch {A} (body : Completion A) (handler : Exn -> A) : A :=
  match body with
  | Normal a => a
  | Throw e => handler e
  end.

(** The host: [Platform.OS], [Platform.Version.toString()] and the
    locale's rendering of a time, [new Date(t).toLocaleTimeString()]. *)
Record Host := mkHost {
  Platform_OS : string;
  Platform_Version : string;
  toLocaleTimeString : string -> string;
}.

(** One call of a [console] method: the channel ([console.debug],
    [console.info], [console.warn] or [console.error], named by its
    level), the text, and the second argument if one was passed. *)
Inductive ConsoleArg :=
  | ArgData (v : JSValue)
  | ArgError (e : Exn).

Record ConsoleCall := mkConsoleCall {
  channel : LogLevel;
  text : string;
  extra : option ConsoleArg;
}.

#[global] Instance Exn_eq_dec : EqDecision Exn.
Proof. solve_decision. Defined.

#[global] Instance ConsoleArg_eq_dec : EqDecision ConsoleArg.
Proof. solve_decision. Defined.

#[global] Instance ConsoleCall_eq_dec : EqDecision ConsoleCall.
Proof. solve_decision. Defined.

(** A text kept by AsyncStorage under a key: either the JSON text of an
    array of log entries (what [JSON.parse] reads it as), or a text that
    is not JSON.  Texts that are JSON but not an array of entries are
    left out of the model: the service never writes one. *)
Inductive StoredText :=
  | LogsText (logs : list LogEntry)
  | NotJson (raw : string).

(** What an entry is after [JSON.stringify] and [JSON.parse]. *)
Definition storedEntry (e : LogEntry) : LogEntry :=
  {| timestamp := timestamp e;
     level := level e;
     message := message e;
     context := context e;
     data := jsonClone (data e);
     deviceInfo := deviceInfo e |}.

(** [JSON.stringify(logs)], as a stored text. *)
Definition stringifyLogs (logs : list LogEntry) : StoredText :=
  LogsText (map storedEntry logs).

(** An object reference. *)
Abbreviation ref := positive.

(** The request [fetch] is called with; the body is kept as the object
    handed to [JSON.stringify], [{ appName, logs }]. *)
Record Request := mkRequest {
  url : string;
  method : string;
  contentType : string;
  body_appName : string;
  body_logs : list LogEntry;
}.

Inductive Response := HttpStatus (status : Z).

(** The fields of a [Logger] instance.  [config] refers to a
    configuration object of the heap.  [flushTimer] is [None] for
    [null]; a timer identifier is a positive number, hence truthy. *)
Module Logger.
Record t := mk {
  config : ref;
  context : string;
  pendingLogs : list LogEntry;
  flushTimer : option positive;
}.
End Logger.

(** An activation of an [async] method waiting at an [await]. *)
Inductive Suspended :=
  | AwaitFetch (this : ref) (logsToSend : list LogEntry)
      (* flushRemoteLogs, at [await fetch(...)] *)
  | AwaitGetItem (this : ref) (entry : LogEntry)
      (* storeLocally, at [await AsyncStorage.getItem(...)] *)
  | AwaitSetItem (value : StoredText).
      (* storeLocally, at [await AsyncStorage.setItem(...)] *)

(** A callback registered with [setTimeout]: the logger whose
    [flushRemoteLogs] it calls, and the delay. *)
Record Timeout := mkTimeout {
  flushes : ref;
  delay : Z;
}.

Record World := mkWorld {
  host : Host;
  configs : gmap positive LoggingConfig;   (* configuration objects *)
  loggers : gmap positive Logger.t;        (* Logger instances *)
  console : list ConsoleCall;              (* console calls, oldest first *)
  AsyncStorage : gmap string StoredText;
  timers : gmap positive Timeout;          (* armed timeouts *)
  fetches : list Request;                  (* requests made, oldest first *)
  suspended : gmap positive Suspended;     (* pending awaits *)
}.

#[global] Instance Logger_inhabited : Inhabited Logger.t :=
  populate (Logger.mk 1%positive "App" [] None).

(** The object [loggingConfig] exported by the configuration module. *)
Definition loggingConfig_ref : ref := 1%positive.

(** The singleton [logger] exported by the service. *)
Definition logger : ref := 1%positive.

(** *** Field updates *)

Definition set_configs (f : gmap positive LoggingConfig -> gmap positive LoggingConfig) (w : World) : World :=
  mkWorld (host w) (f (configs w)) (loggers w) (console w) (AsyncStorage w)
          (timers w) (fetches w) (suspended w).

Definition set_loggers (f : gmap positive Logger.t -> gmap positive Logger.t) (w : World) : World :=
  mkWorld (host w) (configs w) (f (loggers w)) (console w) (AsyncStorage w)
          (timers w) (fetches w) (suspended w).

Definition set_console (f : list ConsoleCall -> list ConsoleCall) (w : World) : World :=
  mkWorld (host w) (configs w) (loggers w) (f (console w)) (AsyncStorage w)
          (timers w) (fetches w) (suspended w).

Definition set_AsyncStorage (f : gmap string StoredText -> gmap string StoredText) (w : World) : World :=
  mkWorld (host w) (configs w) (loggers w) (console w) (f (AsyncStorage w))
          (timers w) (fetches w) (suspended w).

Definition set_timers (f : gmap positive Timeout -> gmap positive Timeout) (w : World) : World :=
  mkWorld (host w) (configs w) (loggers w) (console w) (AsyncStorage w)
          (f (timers w)) (fetches w) (suspended w).

Definition set_fetches (f : list Request -> list Request) (w : World) : World :=
  mkWorld (host w) (configs w) (loggers w) (console w) (AsyncStorage w)
          (timers w) (f (fetches w)) (suspended w).

Definition set_suspended (f : gmap positive Suspended -> gmap positive Suspended) (w : World) : World :=
  mkWorld (host w) (configs w) (loggers w) (console w) (AsyncStorage w)
          (timers w) (fetches w) (f (suspended w)).

(** [this], read from the heap. *)
Abbreviation self this w :=
  (@lookup_total positive Logger.t (gmap positive Logger.t) _ this (loggers w)).

(** [this.config], read through the reference the logger holds. *)
Abbreviation this_config this w :=
  (@lookup_total positive LoggingConfig (gmap positive LoggingConfig) _
     (Logger.config (self this w)) (configs w)).

Definition set_pendingLogs (this : ref) (logs : list LogEntry) (w : World) : World :=
  let l := self this w in
  set_loggers <[this := Logger.mk (Logger.config l) (Logger.context l) logs (Logger.flushTimer l)]> w.

Definition set_flushTimer (this : ref) (t : option positive) (w : World) : World :=
  let l := self this w in
  set_loggers <[this := Logger.mk (Logger.config l) (Logger.context l) (Logger.pendingLogs l) t]> w.

Definition set_config (this : ref) (c : ref) (w : World) : World :=
  let l := self this w in
  set_loggers <[this := Logger.mk c (Logger.context l) (Logger.pendingLogs l) (Logger.flushTimer l)]> w.

(** Suspend the running activation at an [await]. *)
Definition suspend (k : Suspended) (w : World) : World :=
  set_suspended <[fresh (dom (suspended w)) := k]> w.

(** ** The logger service: methods of [class Logger] *)

(** [new Logger()]: the constructor binds [config] to the exported
    [loggingConfig] object; the field initialisers give the rest. *)
Definition new_Logger : Logger.t :=
  Logger.mk loggingConfig_ref "App" [] None.

(** [withContext(context)]: returns the new instance and the world
    holding it. *)
Definition withContext (this : ref) (context : string) (w : World) : ref * World :=
  let logger := fresh (dom (loggers w)) in
  let w1 := set_loggers <[logger := new_Logger]> w in
  let w2 := set_loggers <[logger := Logger.mk (Logger.config (self logger w1)) context
                                      (Logger.pendingLogs (self logger w1))
                                      (Logger.flushTimer (self logger w1))]> w1 in
  let w3 := set_config logger (Logger.config (self this w2)) w2 in
  (logger, w3).

(** [configure(updates)]: [this.config = { ...this.config, ...updates }]
    builds a new object and binds [this.config] to it. *)
Definition configure (this : ref) (updates : PartialConfig) (w : World) : World :=
  let c := fresh (dom (configs w)) in
  let w1 := set_configs <[c := merge (this_config this w) updates]> w in
  set_config this c w1.

(** [updateLoggingConfig(updates)] of the configuration module:
    [Object.assign(loggingConfig, updates)] changes the exported object
    in place. *)
Definition updateLoggingConfig (updates : PartialConfig) (w : World) : LoggingConfig * World :=
  let w1 := set_configs <[loggingConfig_ref := merge (configs w !!! loggingConfig_ref) updates]> w in
  (configs w1 !!! loggingConfig_ref, w1).

Definition shouldLog (this : ref) (level : LogLevel) (w : World) : bool :=
  LOG_LEVELS level >=? LOG_LEVELS (minLevel (this_config this w)).

Definition shouldLogRemote (this : ref) (level : LogLevel) (w : World) : bool :=
  enableRemoteLogging (this_config this w)
  && (LOG_LEVELS level >=? LOG_LEVELS (remoteMinLevel (this_config this w))).

(** [formatEntry(level, message, data)]; [now] is
    [new Date().toISOString()] at the call. *)
Definition formatEntry (this : ref) (level : LogLevel) (message : string) (data : JSValue)
    (now : string) (w : World) : LogEntry :=
  {| timestamp := now;
     level := level;
     message := message;
     context := Some (Logger.context (self this w));
     data := if defined data then data else JUndefined;
     deviceInfo :=
       if includeDeviceInfo (this_config this w)
       then Some (mkDeviceInfo (Platform_OS (host w)) (Platform_Version (host w)))
       else None |}.

Definition upper_ascii (c : ascii) : ascii :=
  let n := nat_of_ascii c in
  if ((97 <=? n) && (n <=? 122))%nat then ascii_of_nat (n - 32) else c.

(** [s.toUpperCase()], on ASCII. *)
Fixpoint toUpperCase (s : string) : string :=
  match s with
  | EmptyString => EmptyString
  | String c s' => String (upper_ascii c) (toUpperCase s')
  end.

(** A template-literal hole filled with an optional string. *)
Definition show_optional (o : option string) : string :=
  match o with Some s => s | None => "undefined" end.

Definition formatConsoleMessage (this : ref) (entry : LogEntry) (w : World) : string :=
  let parts : list string := [] in
  let parts :=
    if includeTimestamp (this_config this w)
    then parts ++ ["[" +:+ toLocaleTimeString (host w) (timestamp entry) +:+ "]"]
    else parts in
  let parts := parts ++ ["[" +:+ toUpperCase (level_text (level entry)) +:+ "]"] in
  let parts := parts ++ ["[" +:+ show_optional (context entry) +:+ "]"] in
  let parts := parts ++ [message entry] in
  join " " parts.

(** [console.<channel>(message, data)] or [console.<channel>(message)] *)
Definition console_call (ch : LogLevel) (message : string) (data : JSValue) : ConsoleCall :=
  mkConsoleCall ch message (if defined data then Some (ArgData data) else None).

Definition logToConsole (this : ref) (entry : LogEntry) (w : World) : World :=
  if negb (enableConsole (this_config this w)) then w
  else
    let message := formatConsoleMessage this entry w in
    let data := data entry in
    match level entry with
    | LDebug => set_console (fun c => c ++ [console_call LDebug message data]) w
    | LInfo => set_console (fun c => c ++ [console_call LInfo message data]) w
    | LWarn => set_console (fun c => c ++ [console_call LWarn message data]) w
    | LError => set_console (fun c => c ++ [console_call LError message data]) w
    | LNone => w
    end.

(** [console.error(message, error)] of the [catch] blocks. *)
Definition console_error (message : string) (e : Exn) (w : World) : World :=
  set_console (fun c => c ++ [mkConsoleCall LError message (Some (ArgError e))]) w.

(** [logs.slice(start)]: a negative [start] counts from the end. *)
Definition slice {A} (start : Z) (l : list A) : list A :=
  let len := Z.of_nat (length l) in
  let k := if start <? 0 then Z.max (len + start) 0 else Z.min start len in
  drop (Z.to_nat k) l.

(** [stored ? JSON.parse(stored) : []] *)
Definition parseStored (stored : option StoredText) : Completion (list LogEntry) :=
  match stored with
  | None => Normal []
  | Some (LogsText logs) => Normal logs
  | Some (NotJson raw) => if nonempty raw then Throw SyntaxError else Normal []
  end.

(** How AsyncStorage settles an operation: it does it, or it rejects. *)
Inductive Outcome := Done | Failed.

Definition getItem (o : Outcome) (key : string) (w : World) : Settled (option StoredText) :=
  match o with
  | Done => Fulfilled (AsyncStorage w !! key)
  | Failed => Rejected StorageError
  end.

Definition setItem (o : Outcome) (key : string) (value : StoredText) (w : World)
    : Settled unit * World :=
  match o with
  | Done => (Fulfilled tt, set_AsyncStorage <[key := value]> w)
  | Failed => (Rejected StorageError, w)
  end.

Definition removeItem (o : Outcome) (key : string) (w : World) : Settled unit * World :=
  match o with
  | Done => (Fulfilled tt, set_AsyncStorage (delete key) w)
  | Failed => (Rejected StorageError, w)
  end.

Definition storeLocally_catch (e : Exn) (w : World) : World :=
  console_error "Failed to store log:" e w.

(** [storeLocally(entry)], up to its first [await]. *)
Definition storeLocally (this : ref) (entry : LogEntry) (w : World) : World :=
  if negb (enableLocalStorage (this_config this w)) then w
  else suspend (AwaitGetItem this entry) w.

(** "Keep only the most recent logs":
    [if (logs.length > maxStoredLogs) logs = logs.slice(-maxStoredLogs)] *)
Definition keepRecent (maxStoredLogs : Z) (logs : list LogEntry) : list LogEntry :=
  if Z.of_nat (length logs) >? maxStoredLogs
  then slice (- maxStoredLogs) logs
  else logs.

(** The [try] block of [storeLocally] from [getItem] settling to the
    call of [setItem]: the text to write, or what was thrown. *)
Definition storeLocally_try (this : ref) (entry : LogEntry)
    (got : Settled (option StoredText)) (w : World) : Completion StoredText :=
  let! stored := await got in
  let! logs := parseStored stored in
  let logs := logs ++ [entry] in
  let logs := keepRecent (maxStoredLogs (this_config this w)) logs in
  Normal (stringifyLogs logs).

(** [storeLocally] resumed when [getItem] settles (activation [k]). *)
Definition storeLocally_gotItem (k : positive) (o : Outcome) (w : World) : World :=
  match suspended w !! k with
  | Some (AwaitGetItem this entry) =>
      let w := set_suspended (delete k) w in
      try_catch
        (let! value := storeLocally_try this entry (getItem o LOG_STORAGE_KEY w) w in
         Normal (set_suspended <[k := AwaitSetItem value]> w))
        (fun e => storeLocally_catch e w)
  | _ => w
  end.

(** [storeLocally] resumed when [setItem] settles. *)
Definition storeLocally_setItem (k : positive) (o : Outcome) (w : World) : World :=
  match suspended w !! k with
  | Some (AwaitSetItem value) =>
      let w := set_suspended (delete k) w in
      let '(settled, w) := setItem o LOG_STORAGE_KEY value w in
      try_catch (let! _ := await settled in Normal w)
                (fun e => storeLocally_catch e w)
  | _ => w
  end.

(** [setTimeout(callback, delay)]: the timer's identifier and the world
    in which it is armed. *)
Definition setTimeout (callback : Timeout) (w : World) : positive * World :=
  let t := fresh (dom (timers w)) in
  (t, set_timers <[t := callback]> w).

Definition clearTimeout (t : positive) (w : World) : World :=
  set_timers (delete t) w.

(** [fetch(url, { method, headers, body })]: the request goes out. *)
Definition fetch (r : Request) (w : World) : World :=
  set_fetches (fun rs => rs ++ [r]) w.

(** The first statement of [flushRemoteLogs]:
    [if (this.flushTimer) { clearTimeout(this.flushTimer); this.flushTimer = null; }] *)
Definition cancel_flushTimer (this : ref) (w : World) : World :=
  match Logger.flushTimer (self this w) with
  | Some t => set_flushTimer this None (clearTimeout t w)
  | None => w
  end.

(** [flushRemoteLogs()], up to [await fetch(...)]. *)
Definition flushRemoteLogs (this : ref) (w : World) : World :=
  let w := cancel_flushTimer this w in
  if (Z.of_nat (length (Logger.pendingLogs (self this w))) =? 0)
     || negb (truthy_text (remoteEndpoint (this_config this w)))
  then w
  else
    let logsToSend := Logger.pendingLogs (self this w) in
    let w := set_pendingLogs this [] w in
    let w := fetch {| url := default EmptyString (remoteEndpoint (this_config this w));
                      method := "POST";
                      contentType := "application/json";
                      body_appName := appName (this_config this w);
                      body_logs := logsToSend |} w in
    suspend (AwaitFetch this logsToSend) w.

(** [flushRemoteLogs] resumed when [fetch] settles (activation [k]): a
    response of any status fulfils the promise, only a request that
    could not be made rejects it. *)
Definition flushRemoteLogs_fetched (k : positive) (r : Settled Response) (w : World) : World :=
  match suspended w !! k with
  | Some (AwaitFetch this logsToSend) =>
      let w := set_suspended (delete k) w in
      try_catch
        (let! _ := await r in Normal w)
        (fun _ => set_pendingLogs this (logsToSend ++ Logger.pendingLogs (self this w)) w)
  | _ => w
  end.

(** An armed timeout fires: it leaves the timer table and its callback,
    [() => this.flushRemoteLogs()], runs. *)
Definition timeout_fires (t : positive) (w : World) : World :=
  match timers w !! t with
  | Some callback => flushRemoteLogs (flushes callback) (set_timers (delete t) w)
  | None => w
  end.

Definition queueForRemote (this : ref) (entry : LogEntry) (w : World) : World :=
  if negb (shouldLogRemote this (level entry) w) then w
  else
    let w := set_pendingLogs this (Logger.pendingLogs (self this w) ++ [entry]) w in
    if Z.of_nat (length (Logger.pendingLogs (self this w))) >=? 10
    then flushRemoteLogs this w
    else
      match Logger.flushTimer (self this w) with
      | None =>
          let '(t, w) := setTimeout {| flushes := this; delay := 5000 |} w in
          set_flushTimer this (Some t) w
      | Some _ => w
      end.

(** [log(level, message, data)]; [now] is the instant of the call. *)
Definition log (this : ref) (level : LogLevel) (message : string) (data : JSValue)
    (now : string) (w : World) : World :=
  if negb (shouldLog this level w) then w
  else
    let entry := formatEntry this level message data now w in
    let w := logToConsole this entry w in
    let w := storeLocally this entry w in
    queueForRemote this entry w.

Definition debug (this : ref) (message : string) (data : JSValue) (now : string) (w : World) : World :=
  log this LDebug message data now w.

Definition info (this : ref) (message : string) (data : JSValue) (now : string) (w : World) : World :=
  log this LInfo message data now w.

Definition warn (this : ref) (message : string) (data : JSValue) (now : string) (w : World) : World :=
  log this LWarn message data now w.

Definition error (this : ref) (message : string) (data : JSValue) (now : string) (w : World) : World :=
  log this LError message data now w.




(** [getStoredLogs()]: its one [await] is the read, which [o] settles. *)
Definition getStoredLogs (o : Outcome) (w : World) : list LogEntry :=
  try_catch
    (let! stored := await (getItem o LOG_STORAGE_KEY w) in parseStored stored)
    (fun _ => []).

Definition clearStoredLogs (o : Outcome) (w : World) : World :=
  let '(settled, w) := removeItem o LOG_STORAGE_KEY w in
  try_catch (let! _ := await settled in Normal w)
            (fun e => console_error "Failed to clear logs:" e w).

Definition newline : string := String (ascii_of_nat 10) EmptyString.

(** The template literal of [exportLogs]. *)
Definition exportLine (log : LogEntry) : string :=
  timestamp log +:+ " [" +:+ toUpperCase (level_text (level log)) +:+ "] ["
  +:+ show_optional (context log) +:+ "] " +:+ message log
  +:+ (if truthy (data log) then " " +:+ show_optional (JSON_stringify (data log))
       else EmptyString).

Definition exportLogs (o : Outcome) (w : World) : string :=
  let logs := getStoredLogs o w in
  join newline (map exportLine logs).

(** ** The service at start-up *)

(** The world once the modules are loaded: the exported configuration
    object and the singleton [logger], nothing logged yet. *)
Definition boot (h : Host) (DEV : bool) : World :=
  {| host := h;
     configs := {[loggingConfig_ref := loggingConfig DEV]};
     loggers := {[logger := new_Logger]};
     console := [];
     AsyncStorage := ∅;
     timers := ∅;
     fetches := [];
     suspended := ∅ |}.

(** ** The service as a state machine *)

(** What happens to the service: a call from the application, a timer
    firing, or an awaited operation settling. *)
Inductive Event :=
  | CallLog (this : ref) (level : LogLevel) (message : string) (data : JSValue) (now : string)
  | CallWithContext (this : ref) (context : string)
  | CallConfigure (this : ref) (updates : PartialConfig)
  | CallUpdateLoggingConfig (updates : PartialConfig)
  | CallClearStoredLogs (o : Outcome)
  | TimeoutFires (t : positive)
  | FetchSettles (k : positive) (r : Settled Response)
  | GetItemSettles (k : positive) (o : Outcome)
  | SetItemSettles (k : positive) (o : Outcome).

Definition step (ev : Event) (w : World) : World :=
  match ev with
  | CallLog this level message data now => log this level message data now w
  | CallWithContext this context => snd (withContext this context w)
  | CallConfigure this updates => configure this updates w
  | CallUpdateLoggingConfig updates => snd (updateLoggingConfig updates w)
  | CallClearStoredLogs o => clearStoredLogs o w
  | TimeoutFires t => timeout_fires t w
  | FetchSettles k r => flushRemoteLogs_fetched k r w
  | GetItemSettles k o => storeLocally_gotItem k o w
  | SetItemSettles k o => storeLocally_setItem k o w
  end.

Fixpoint run (evs : list Event) (w : World) : World :=
  match evs with
  | [] => w
  | ev :: evs => run evs (step ev w)
  end.

(** The entries the remote sink of [j] accepts during a run: those of
    the calls of [log] on [j] that pass the gate and [shouldLogRemote]. *)
Fixpoint accepted (j : ref) (evs : list Event) (w : World) : list LogEntry :=
  match evs with
  | [] => []
  | ev :: evs =>
      match ev with
      | CallLog this level message data now =>
          if bool_decide (this = j) && shouldLog j level w && shouldLogRemote j level w
          then [formatEntry j level message data now w]
          else []
      | _ => []
      end ++ accepted j evs (step ev w)
  end.

(** The entries logger [j] holds for the remote endpoint: those of its
    queue and those of its batches in flight. *)
Definition holds (j : ref) (w : World) (entry : LogEntry) : Prop :=
  entry ∈ Logger.pendingLogs (self j w)
  \/ exists k batch, suspended w !! k = Some (AwaitFetch j batch) /\ entry ∈ batch.

(** ** Observations the statements use *)

(** Everything the remote sink of [this] has taken in so far: the
    entries of the requests made, then the entries still pending. *)
Definition remote_intake (this : ref) (w : World) : list LogEntry :=
  flat_map body_logs (fetches w) ++ Logger.pendingLogs (self this w).

(** The call [log(level, ...)] made in [w] and ending in [w'] reached
    the console: one more console call, on the channel of the level,
    with the formatted line and the data. *)
Definition reaches_console (this : ref) (entry : LogEntry) (w w' : World) : Prop :=
  console w'
  = console w ++ [console_call (level entry) (formatConsoleMessage this entry w) (data entry)].

(** It reached the remote queue: the remote sink took the entry in. *)
Definition reaches_remote (this : ref) (entry : LogEntry) (w w' : World) : Prop :=
  remote_intake this w' = remote_intake this w ++ [entry].

#[global] Instance reaches_console_dec this entry w w' :
  Decision (reaches_console this entry w w').
Proof. unfold reaches_console. apply _. Defined.

#[global] Instance reaches_remote_dec this entry w w' :
  Decision (reaches_remote this entry w w').
Proof. unfold reaches_remote. apply _. Defined.

(** One call of [storeLocally] run to its end before anything else
    happens, the storage doing what it is asked. *)
Definition append (this : ref) (entry : LogEntry) (w : World) : World :=
  let k := fresh (dom (suspended w)) in
  storeLocally_setItem k Done (storeLocally_gotItem k Done (storeLocally this entry w)).

(** Sequential appends, each complete before the next starts. *)
Definition appendAll (this : ref) (entries : list LogEntry) (w : World) : World :=
  fold_left (fun w entry => append this entry w) entries w.

(** The last [n] elements of a list. *)
Definition lastn {A} (n : nat) (l : list A) : list A := drop (length l - n) l.

(** ** Sample worlds *)

Definition android : Host := mkHost "android" "34" (fun iso => iso).

Definition noon : string := "2024-05-01T12:00:00.000Z".

(** The service as it starts in a development build and in a
    production build. *)
Definition development : World := boot android true.

Definition production : World := boot android false.

(** [{ minLevel: l }] *)
Definition just_minLevel (l : LogLevel) : PartialConfig :=
  mkPartial (Some l) None None None None None None None None None.

(** [{ maxStoredLogs: n }] *)
Definition just_maxStoredLogs (n : Z) : PartialConfig :=
  mkPartial None None None (Some n) None None None None None None.

(** [{ minLevel: 'error', remoteMinLevel: 'debug' }] on the production
    configuration: the remote sink would take every level. *)
Definition errors_only_remote_all : World :=
  configure logger
    (mkPartial (Some LError) None None None None None (Some LDebug) None None None)
    production.

(** The error-level entry the singleton builds at [noon] for a message. *)
Definition error_entry (message : string) : LogEntry :=
  formatEntry logger LError message JUndefined noon production.

(** Production: two errors logged, then the flush timer fires and the
    request for both is in flight (activation 3), then a third error is
    logged. *)
Definition two_queued : World :=
  error logger "b" JUndefined noon (error logger "a" JUndefined noon production).

Definition in_flight : World := timeout_fires 1 two_queued.

Definition third_queued : World := error logger "c" JUndefined noon in_flight.

(** Nine errors queued in production, and the timer armed by the first. *)
Definition nine_queued : World :=
  Nat.iter 9 (error logger "e" JUndefined noon) production.

(** Development, with a stored text that is not JSON. *)
Definition unparsable_store : World :=
  set_AsyncStorage <[LOG_STORAGE_KEY := NotJson "{oops"]> development.

(** An entry whose data are the number zero. *)
Definition zero_count : LogEntry :=
  mkEntry noon LInfo "count" (Some "App") (JNum 0) None.


(** Development with the capacity of the store set to zero. *)
Definition no_capacity : World := configure logger (just_maxStoredLogs 0) development.



(** ** Further vocabulary *)

(** [{}]: no update at all. *)
Definition noUpdates : PartialConfig :=
  mkPartial None None None None None None None None None None.

(** [queueForRemote] called for each entry in turn. *)
Definition enqueueAll (this : ref) (entries : list LogEntry) (w : World) : World :=
  fold_left (fun w entry => queueForRemote this entry w) entries w.

(** The request a flush makes for a batch under a configuration. *)
Definition batch_request (c : LoggingConfig) (batch : list LogEntry) : Request :=
  {| url := default EmptyString (remoteEndpoint c);
     method := "POST";
     contentType := "application/json";
     body_appName := appName c;
     body_logs := batch |}.

(** The armed timers are the [flushTimer]s of the loggers: every armed
    timer flushes the logger whose [flushTimer] it is, after 5000, and
    every [flushTimer] is an armed timer. *)
Definition timers_match (w : World) : Prop :=
  (forall t cb, timers w !! t = Some cb ->
     Logger.flushTimer (self (flushes cb) w) = Some t /\ delay cb = 5000)
  /\ (forall j t, Logger.flushTimer (self j w) = Some t ->
       timers w !! t = Some {| flushes := j; delay := 5000 |}).

(** Events that change a configuration. *)
Definition reconfigures (ev : Event) : bool :=
  match ev with
  | CallConfigure _ _ | CallUpdateLoggingConfig _ => true
  | _ => false
  end.

(** What every held or sent entry satisfies under configuration [c]. *)
Definition passes_remote (c : LoggingConfig) (e : LogEntry) : Prop :=
  enableRemoteLogging c = true
  /\ LOG_LEVELS (level e) >= LOG_LEVELS (remoteMinLevel c).

(** One call of [storeLocally] run to its end before anything else
    happens, the storage settling the read with [got] and the write
    with [set]. *)
Definition appendWith (got set : Outcome) (this : ref) (entry : LogEntry) (w : World) : World :=
  let k := fresh (dom (suspended w)) in
  storeLocally_setItem k set (storeLocally_gotItem k got (storeLocally this entry w)).

(** Two calls of [storeLocally] that overlap: both are made, both
    reads settle, then both writes, in the order of the calls. *)
Definition overlapped (this : ref) (first second : LogEntry) (w : World) : World :=
  let k1 := fresh (dom (suspended w)) in
  let w := storeLocally this first w in
  let k2 := fresh (dom (suspended w)) in
  let w := storeLocally this second w in
  let w := storeLocally_gotItem k1 Done w in
  let w := storeLocally_gotItem k2 Done w in
  let w := storeLocally_setItem k1 Done w in
  storeLocally_setItem k2 Done w.

(** The calls of [configure] on one logger. *)
Definition configures (this : ref) (ev : Event) : bool :=
  match ev with
  | CallConfigure i _ => bool_decide (i = this)
  | _ => false
  end.

(** [this] is a logger of the world, bound to a configuration object
    other than the exported [loggingConfig], whose values are [c]. *)
Definition holds_own_config (this : ref) (c : LoggingConfig) (w : World) : Prop :=
  is_Some (loggers w !! this)
  /\ Logger.config (self this w) <> loggingConfig_ref
  /\ configs w !! Logger.config (self this w) = Some c.

(** From [w] to [w'] no configuration object changed, no logger was
    bound to another one, and no logger went away. *)
Definition keeps_configuration (w w' : World) : Prop :=
  configs w' = configs w
  /\ forall j, Logger.config (self j w') = Logger.config (self j w)
              /\ (is_Some (loggers w !! j) -> is_Some (loggers w' !! j)).

(** One call of [storeLocally] during which the store is cleared: the
    read settles, [clearStoredLogs] runs to its end, then the write
    settles. *)
Definition clearedMeanwhile (this : ref) (entry : LogEntry) (w : World) : World :=
  let k := fresh (dom (suspended w)) in
  let w := storeLocally_gotItem k Done (storeLocally this entry w) in
  let w := clearStoredLogs Done w in
  storeLocally_setItem k Done w.

(** Events that neither change a configuration nor report a request
    that could not be made. *)
Definition undisturbed (ev : Event) : bool :=
  match ev with
  | CallConfigure _ _ | CallUpdateLoggingConfig _ => false
  | FetchSettles _ (Rejected _) => false
  | _ => true
  end.

(** Under [c] a flush of a queue that is not empty sends it: remote
    logging is off (and nothing is queued), or an endpoint is there. *)
Definition sendable (c : LoggingConfig) : Prop :=
  enableRemoteLogging c = false \/ truthy_text (remoteEndpoint c) = true.

(** Every queue is shorter than ten and no request made so far carries
    more than ten entries. *)
Definition batches_bounded (w : World) : Prop :=
  (forall j, (length (Logger.pendingLogs (self j w)) < 10)%nat)
  /\ (forall r, r ∈ fetches w -> (length (body_logs r) <= 10)%nat).

(** *** Further sample worlds *)

(** Development with remote logging switched on; no endpoint is
    configured there. *)
Definition remote_without_endpoint : World :=
  configure logger (mkPartial None None None None (Some true) None None None None None)
    development.

(** Development with a negative capacity of the store. *)
Definition negative_capacity : World := configure logger (just_maxStoredLogs (-1)) development.

(** Development with a store of two entries at most. *)
Definition capacity_two : World := configure logger (just_maxStoredLogs 2) development.

(** Development after one entry has been stored. *)
Definition one_stored : World := append logger (error_entry "a") development.

(** One error logged, then the flush timer fires: the request for it
    is in flight (activation 2) and no timer is armed. *)
Definition sent_on_timer : list Event :=
  [CallLog logger LError "a" JUndefined noon; TimeoutFires 1].

(** ** src/services/api.ts of the consumer app: token management *)

Module Api.

Definition TOKEN_KEY : string := "authToken".

(** The state the token functions work on: the secure store of the
    device, the module variable [authToken] ([None] is [null]), and the
    console. *)
Record State := mkState {
  SecureStore : gmap string string;
  authToken : option string;
  console : list ConsoleCall;
}.

Definition set_SecureStore (f : gmap string string -> gmap string string) (s : State) : State :=
  mkState (f (SecureStore s)) (authToken s) (console s).

Definition set_authToken (token : option string) (s : State) : State :=
  mkState (SecureStore s) token (console s).

Definition console_error (message : string) (e : Exn) (s : State) : State :=
  mkState (SecureStore s) (authToken s)
          (console s ++ [mkConsoleCall LError message (Some (ArgError e))]).

(** The operations of the secure store; [o] is how the store settles
    the call. *)
Definition getItemAsync (o : Outcome) (key : string) (s : State) : Settled (option string) :=
  match o with
  | Done => Fulfilled (SecureStore s !! key)
  | Failed => Rejected StorageError
  end.

Definition setItemAsync (o : Outcome) (key value : string) (s : State) : Settled unit * State :=
  match o with
  | Done => (Fulfilled tt, set_SecureStore <[key := value]> s)
  | Failed => (Rejected StorageError, s)
  end.

Definition deleteItemAsync (o : Outcome) (key : string) (s : State) : Settled unit * State :=
  match o with
  | Done => (Fulfilled tt, set_SecureStore (delete key) s)
  | Failed => (Rejected StorageError, s)
  end.

(** [getStoredToken()]: what the promise fulfils with, and the state. *)
Definition getStoredToken (o : Outcome) (s : State) : option string * State :=
  try_catch
    (let! token := await (getItemAsync o TOKEN_KEY s) in Normal (token, s))
    (fun e => (None, console_error "Error getting token from storage:" e s)).

(** [setStoredToken(token)]: [if (token)] is the truth of an optional
    string; in its first branch the token is a string. *)
Definition setStoredToken (o : Outcome) (token : option string) (s : State) : State :=
  try_catch
    (if truthy_text token then
       let '(settled, s) := setItemAsync o TOKEN_KEY (default EmptyString token) s in
       let! _ := await settled in
       Normal (set_authToken token s)
     else
       let '(settled, s) := deleteItemAsync o TOKEN_KEY s in
       let! _ := await settled in
       Normal (set_authToken None s))
    (fun e => console_error "Error storing token:" e s).

(** "Initialize token on app start":
    [getStoredToken().then(token => { authToken = token; })] *)
Definition initialize (o : Outcome) (s : State) : State :=
  let '(token, s) := getStoredToken o s in
  set_authToken token s.

(** The module once loaded, on a device whose secure store is [store]. *)
Definition loaded (store : gmap string string) : State :=
  mkState store None [].

(** Calls of [setStoredToken], each run to its end before the next. *)
Definition setAll (calls : list (Outcome * option string)) (s : State) : State :=
  fold_left (fun s call => setStoredToken (fst call) (snd call) s) calls s.

End Api.

(** * Properties *)

(** ** JSON texts *)

Example stringify_object :
  JSON_stringify (JObj [("a", JNum 1); ("b", JUndefined); ("c", JArr [JStr "x"; JUndefined; JNum (-20)])])
  = Some ("{" +:+ quote "a" +:+ ":1," +:+ quote "c" +:+ ":[" +:+ quote "x" +:+ ",null,-20]}").
Proof. vm_compute. reflexivity. Qed.

Example clone_object :
  jsonClone (JObj [("a", JNum 1); ("b", JUndefined); ("c", JArr [JStr "x"; JUndefined])])
  = JObj [("a", JNum 1); ("c", JArr [JStr "x"; JNull])].
Proof. reflexivity. Qed.

(** ** Reading the heaps after an update *)

(** Unfold the field updates and read the heaps. *)
Ltac heap :=
  repeat first
    [ progress cbn [host configs loggers console AsyncStorage timers fetches suspended
                    set_configs set_loggers set_console set_AsyncStorage set_timers
                    set_fetches set_suspended set_pendingLogs set_flushTimer set_config
                    suspend fetch clearTimeout setTimeout
                    Logger.config Logger.context Logger.pendingLogs Logger.flushTimer
                    fst snd] in *
    | match goal with
      | |- context [ <[?i:=?x]> ?m !!! ?i ] => rewrite (lookup_total_insert_eq m i x)
      | |- context [ <[?i:=?x]> ?m !!! ?j ] =>
          rewrite (lookup_total_insert_ne m i j x) by done
      end ].

Lemma fresh_unused {A} (m : gmap positive A) : m !! fresh (dom m) = None.
Proof. apply not_elem_of_dom, is_fresh. Qed.

Section Remote.
Implicit Types (w : World) (this other : ref) (entry : LogEntry).

Lemma cancel_flushTimer_loggers this w :
  loggers (cancel_flushTimer this w)
  = <[this := Logger.mk (Logger.config (self this w)) (Logger.context (self this w))
              (Logger.pendingLogs (self this w)) None]> (loggers w) 
  \/ (Logger.flushTimer (self this w) = None /\ cancel_flushTimer this w = w).
Proof.
  unfold cancel_flushTimer. destruct (Logger.flushTimer (self this w)) as [t|] eqn:Ht.
  - left. heap. reflexivity.
  - right. done.
Qed.

Lemma cancel_flushTimer_self this w :
  self this (cancel_flushTimer this w)
  = Logger.mk (Logger.config (self this w)) (Logger.context (self this w))
              (Logger.pendingLogs (self this w)) None.
Proof.
  unfold cancel_flushTimer. destruct (Logger.flushTimer (self this w)) as [t|] eqn:Ht.
  - by heap.
  - rewrite <- Ht. by destruct (self this w).
Qed.

Lemma cancel_flushTimer_other this other w :
  this <> other -> self other (cancel_flushTimer this w) = self other w.
Proof.
  intros. unfold cancel_flushTimer.
  destruct (Logger.flushTimer (self this w)); by heap.
Qed.

Lemma cancel_flushTimer_config this other w :
  this_config other (cancel_flushTimer this w) = this_config other w.
Proof.
  destruct (decide (this = other)) as [->|].
  - rewrite cancel_flushTimer_self. unfold cancel_flushTimer.
    destruct (Logger.flushTimer _); by heap.
  - rewrite cancel_flushTimer_other by done. unfold cancel_flushTimer.
    destruct (Logger.flushTimer _); by heap.
Qed.

Lemma cancel_flushTimer_fetches this w :
  fetches (cancel_flushTimer this w) = fetches w.
Proof. unfold cancel_flushTimer. by destruct (Logger.flushTimer _). Qed.

Lemma cancel_flushTimer_suspended this w :
  suspended (cancel_flushTimer this w) = suspended w.
Proof. unfold cancel_flushTimer. by destruct (Logger.flushTimer _). Qed.

Lemma cancel_flushTimer_console this w :
  console (cancel_flushTimer this w) = console w.
Proof. unfold cancel_flushTimer. by destruct (Logger.flushTimer _). Qed.

(** [flushRemoteLogs] when there is nothing to send or nowhere to send it. *)
Lemma flushRemoteLogs_idle this w :
  Logger.pendingLogs (self this w) = [] \/ truthy_text (remoteEndpoint (this_config this w)) = false ->
  flushRemoteLogs this w = cancel_flushTimer this w.
Proof.
  intros H. unfold flushRemoteLogs.
  rewrite cancel_flushTimer_config, cancel_flushTimer_self. heap.
  destruct H as [-> | ->]; simpl; [done|]. by rewrite orb_true_r.
Qed.

(** [flushRemoteLogs] when it sends: the whole queue goes out in one
    request, the queue is emptied, and the activation waits for the
    answer. *)
Lemma flushRemoteLogs_sends this w :
  Logger.pendingLogs (self this w) <> [] ->
  truthy_text (remoteEndpoint (this_config this w)) = true ->
  flushRemoteLogs this w
  = suspend (AwaitFetch this (Logger.pendingLogs (self this w)))
      (fetch {| url := default EmptyString (remoteEndpoint (this_config this w));
                method := "POST";
                contentType := "application/json";
                body_appName := appName (this_config this w);
                body_logs := Logger.pendingLogs (self this w) |}
         (set_pendingLogs this [] (cancel_flushTimer this w))).
Proof.
  intros Hne He. unfold flushRemoteLogs.
  rewrite cancel_flushTimer_config, He, cancel_flushTimer_self. heap.
  destruct (Logger.pendingLogs (self this w)); [done|]. simpl.
  by rewrite !cancel_flushTimer_config.
Qed.

Lemma flushRemoteLogs_intake this w :
  remote_intake this (flushRemoteLogs this w) = remote_intake this w.
Proof.
  destruct (Logger.pendingLogs (self this w)) as [|e l] eqn:Hp;
    [|destruct (truthy_text (remoteEndpoint (this_config this w))) eqn:He].
  - rewrite flushRemoteLogs_idle by auto.
    unfold remote_intake.
    by rewrite cancel_flushTimer_self, cancel_flushTimer_fetches, Hp.
  - rewrite flushRemoteLogs_sends by (rewrite ?Hp; done).
    unfold remote_intake. heap. rewrite cancel_flushTimer_fetches, Hp.
    rewrite flat_map_app; simpl. by rewrite !app_nil_r.
  - rewrite flushRemoteLogs_idle by auto.
    unfold remote_intake.
    by rewrite cancel_flushTimer_self, cancel_flushTimer_fetches.
Qed.

Lemma flushRemoteLogs_console this w :
  console (flushRemoteLogs this w) = console w.
Proof.
  unfold flushRemoteLogs.
  destruct (_ || _); heap; by rewrite cancel_flushTimer_console.
Qed.

Lemma flushRemoteLogs_other this other w :
  this <> other -> loggers (flushRemoteLogs this w) !! other = loggers w !! other.
Proof.
  intros Hne. unfold flushRemoteLogs.
  assert (loggers (cancel_flushTimer this w) !! other = loggers w !! other) as Hc.
  { unfold cancel_flushTimer. destruct (Logger.flushTimer _); heap; [|done].
    by rewrite lookup_insert_ne. }
  destruct (_ || _); heap; [done|]. by rewrite lookup_insert_ne.
Qed.

Lemma flushRemoteLogs_configs this w :
  configs (flushRemoteLogs this w) = configs w.
Proof.
  unfold flushRemoteLogs.
  assert (configs (cancel_flushTimer this w) = configs w) as Hc.
  { unfold cancel_flushTimer. by destruct (Logger.flushTimer _). }
  by destruct (_ || _); heap.
Qed.

(** An entry the remote sink refuses leaves the world as it was. *)
Lemma queueForRemote_refused this entry w :
  shouldLogRemote this (level entry) w = false -> queueForRemote this entry w = w.
Proof. unfold queueForRemote. by intros ->. Qed.

(** An entry the remote sink accepts is taken in, after all it took in
    before. *)
Lemma queueForRemote_intake this entry w :
  shouldLogRemote this (level entry) w = true ->
  remote_intake this (queueForRemote this entry w) = remote_intake this w ++ [entry].
Proof.
  intros Hq. unfold queueForRemote. rewrite Hq; simpl.
  destruct (_ >=? 10).
  - rewrite flushRemoteLogs_intake. unfold remote_intake. heap. by rewrite app_assoc.
  - heap. destruct (Logger.flushTimer (self this w)); unfold remote_intake; heap;
      by rewrite app_assoc.
Qed.

Lemma queueForRemote_console this entry w :
  console (queueForRemote this entry w) = console w.
Proof.
  unfold queueForRemote. destruct (negb _); [done|].
  destruct (_ >=? 10).
  - by rewrite flushRemoteLogs_console.
  - heap. by destruct (Logger.flushTimer (self this w)).
Qed.
End Remote.

Section Dispatch.
Implicit Types (w : World) (this other : ref) (entry : LogEntry).

Lemma logToConsole_heaps this entry w :
  loggers (logToConsole this entry w) = loggers w
  /\ configs (logToConsole this entry w) = configs w
  /\ fetches (logToConsole this entry w) = fetches w
  /\ suspended (logToConsole this entry w) = suspended w
  /\ timers (logToConsole this entry w) = timers w
  /\ AsyncStorage (logToConsole this entry w) = AsyncStorage w.
Proof.
  unfold logToConsole. destruct (negb _); [done|]. by destruct (level entry).
Qed.

Lemma logToConsole_console this entry w :
  level entry <> LNone ->
  console (logToConsole this entry w)
  = console w ++
      (if enableConsole (this_config this w)
       then [console_call (level entry) (formatConsoleMessage this entry w) (data entry)]
       else []).
Proof.
  intros Hl. unfold logToConsole.
  destruct (enableConsole _); simpl; [|by rewrite app_nil_r].
  by destruct (level entry).
Qed.

Lemma storeLocally_heaps this entry w :
  loggers (storeLocally this entry w) = loggers w
  /\ configs (storeLocally this entry w) = configs w
  /\ fetches (storeLocally this entry w) = fetches w
  /\ console (storeLocally this entry w) = console w
  /\ timers (storeLocally this entry w) = timers w
  /\ AsyncStorage (storeLocally this entry w) = AsyncStorage w.
Proof. unfold storeLocally. by destruct (negb _). Qed.

Lemma storeLocally_suspended this entry w :
  suspended (storeLocally this entry w)
  = if enableLocalStorage (this_config this w)
    then <[fresh (dom (suspended w)) := AwaitGetItem this entry]> (suspended w)
    else suspended w.
Proof. unfold storeLocally. by destruct (enableLocalStorage _). Qed.

(** The world [queueForRemote] is called in by [log]: the loggers, the
    configurations and the requests are those [log] was called with. *)
Lemma before_queueForRemote this entry w :
  let w1 := storeLocally this entry (logToConsole this entry w) in
  loggers w1 = loggers w /\ configs w1 = configs w /\ fetches w1 = fetches w
  /\ console w1 = console (logToConsole this entry w).
Proof.
  pose proof (logToConsole_heaps this entry w) as (Hl & Hc & Hf & _).
  pose proof (storeLocally_heaps this entry (logToConsole this entry w))
    as (Hl' & Hc' & Hf' & Hk' & _).
  simpl. rewrite Hl', Hc', Hf', Hk'. auto.
Qed.

Lemma list_neq_snoc {A} (l : list A) x : l <> l ++ [x].
Proof. intros H. apply (f_equal length) in H. rewrite length_app in H. simpl in H. lia. Qed.

(** What one call of [log] that passes the gate does to the console and
    to the remote sink. *)
Lemma log_passing this (L : LogLevel) msg payload now w :
  L <> LNone ->
  LOG_LEVELS L >= LOG_LEVELS (minLevel (this_config this w)) ->
  let entry := formatEntry this L msg payload now w in
  let w' := log this L msg payload now w in
  console w'
  = console w ++
      (if enableConsole (this_config this w)
       then [console_call L (formatConsoleMessage this entry w) (data entry)] else [])
  /\ remote_intake this w'
     = remote_intake this w ++ (if shouldLogRemote this L w then [entry] else []).
Proof.
  intros HL Hge entry w'. subst w'. unfold log, shouldLog.
  destruct (Z.geb_spec (LOG_LEVELS L) (LOG_LEVELS (minLevel (this_config this w))));
    [|lia]. simpl. fold entry.
  pose proof (before_queueForRemote this entry w) as (Hl & Hc & Hf & Hk).
  simpl in Hl, Hc, Hf, Hk.
  set (w1 := storeLocally this entry (logToConsole this entry w)) in *.
  assert (shouldLogRemote this (level entry) w1 = shouldLogRemote this L w) as Hs.
  { unfold shouldLogRemote. by rewrite Hl, Hc. }
  assert (remote_intake this w1 = remote_intake this w) as Hi.
  { unfold remote_intake. by rewrite Hl, Hf. }
  split.
  - rewrite queueForRemote_console, Hk. by rewrite logToConsole_console.
  - destruct (shouldLogRemote this L w) eqn:Hq.
    + by rewrite queueForRemote_intake, Hi.
    + rewrite queueForRemote_refused by done. by rewrite Hi, app_nil_r.
Qed.

(** C5 (as amended). For a leveled call at level [L]: the call reaches
    the console iff the console is enabled and [L] ranks at or above
    [minLevel]; it reaches the remote queue iff remote logging is
    enabled and [L] ranks at or above both [minLevel] and
    [remoteMinLevel].  The remote threshold is tested behind the gate
    of [log], not on its own: an entry can be on the console and kept
    from the remote queue, but no entry below [minLevel] is queued. *)
Theorem sinks_filter_behind_the_gate this (L : LogLevel) msg payload now w :
  L <> LNone ->
  let entry := formatEntry this L msg payload now w in
  let w' := log this L msg payload now w in
  (reaches_console this entry w w' <->
     enableConsole (this_config this w) = true
     /\ LOG_LEVELS L >= LOG_LEVELS (minLevel (this_config this w)))
  /\ (reaches_remote this entry w w' <->
     enableRemoteLogging (this_config this w) = true
     /\ LOG_LEVELS L >= LOG_LEVELS (minLevel (this_config this w))
     /\ LOG_LEVELS L >= LOG_LEVELS (remoteMinLevel (this_config this w))).
Proof.
  intros HL entry w'. unfold reaches_console, reaches_remote.
  destruct (Z_lt_ge_dec (LOG_LEVELS L) (LOG_LEVELS (minLevel (this_config this w))))
    as [Hlt|Hge].
  - assert (w' = w) as ->.
    { subst w'. unfold log, shouldLog.
      destruct (Z.geb_spec (LOG_LEVELS L) (LOG_LEVELS (minLevel (this_config this w))));
        [lia|done]. }
    split; (split; [intros Habs; by apply list_neq_snoc in Habs | intros; lia]).
  - destruct (log_passing this L msg payload now w HL Hge) as [Hc Hr].
    fold entry w' in Hc, Hr. rewrite Hc, Hr. unfold shouldLogRemote. split.
    + destruct (enableConsole _); split; try done.
      * intros Habs. rewrite app_nil_r in Habs. by apply list_neq_snoc in Habs.
      * by intros [? _].
    + destruct (enableRemoteLogging _); simpl.
      * destruct (Z.geb_spec (LOG_LEVELS L) (LOG_LEVELS (remoteMinLevel (this_config this w)))).
        -- split; [intros _; repeat split; lia | done].
        -- split; [|intros (_ & _ & ?); lia].
           intros Habs. rewrite app_nil_r in Habs. by apply list_neq_snoc in Habs.
      * split; [|by intros [? _]].
        intros Habs. rewrite app_nil_r in Habs. by apply list_neq_snoc in Habs.
Qed.
End Dispatch.

(** ** C6: the size trigger and the timer *)

Section Batching.
Implicit Types (w : World) (this other : ref) (entry : LogEntry).

Lemma cancel_flushTimer_timers this w :
  timers (cancel_flushTimer this w)
  = match Logger.flushTimer (self this w) with
    | Some t => delete t (timers w)
    | None => timers w
    end.
Proof. unfold cancel_flushTimer. by destruct (Logger.flushTimer _). Qed.

Lemma flushRemoteLogs_timers this w :
  timers (flushRemoteLogs this w)
  = match Logger.flushTimer (self this w) with
    | Some t => delete t (timers w)
    | None => timers w
    end.
Proof.
  unfold flushRemoteLogs. destruct (_ || _); heap; apply cancel_flushTimer_timers.
Qed.

Lemma flushRemoteLogs_flushTimer this w :
  Logger.flushTimer (self this (flushRemoteLogs this w)) = None.
Proof.
  unfold flushRemoteLogs. destruct (_ || _); heap; by rewrite cancel_flushTimer_self.
Qed.

(** When [flushRemoteLogs] has something to send and somewhere to send
    it: one more request, carrying the queue as it was, and an empty
    queue. *)
Lemma flushRemoteLogs_request this w :
  Logger.pendingLogs (self this w) <> [] ->
  truthy_text (remoteEndpoint (this_config this w)) = true ->
  fetches (flushRemoteLogs this w)
  = fetches w ++ [{| url := default EmptyString (remoteEndpoint (this_config this w));
                     method := "POST";
                     contentType := "application/json";
                     body_appName := appName (this_config this w);
                     body_logs := Logger.pendingLogs (self this w) |}]
  /\ Logger.pendingLogs (self this (flushRemoteLogs this w)) = []
  /\ suspended (flushRemoteLogs this w) !! fresh (dom (suspended w))
     = Some (AwaitFetch this (Logger.pendingLogs (self this w))).
Proof.
  intros Hne He. rewrite flushRemoteLogs_sends by done. heap.
  rewrite cancel_flushTimer_fetches, cancel_flushTimer_suspended.
  by rewrite lookup_insert_eq.
Qed.

(** C6. Let [entry] be accepted by the remote sink and [queued] be the
    queue with [entry] pushed.  With ten entries or more in [queued],
    [queueForRemote] is [flushRemoteLogs] run at once on that queue: no
    timer is armed for it (the armed one, if any, is cancelled) and,
    an endpoint being configured, the request carrying [queued] is
    made within the call.  With fewer than ten and no timer armed, one
    timer is armed, with delay 5000, whose firing is a call of
    [flushRemoteLogs]; nothing is sent yet.  With fewer than ten and a
    timer armed, the entry is pushed and the timers are untouched. *)
Theorem queueForRemote_size_or_timer this entry w :
  shouldLogRemote this (level entry) w = true ->
  let queued := Logger.pendingLogs (self this w) ++ [entry] in
  let w' := queueForRemote this entry w in
  ((10 <= length queued)%nat ->
     w' = flushRemoteLogs this (set_pendingLogs this queued w)
     /\ timers w' ⊆ timers w
     /\ Logger.flushTimer (self this w') = None
     /\ (truthy_text (remoteEndpoint (this_config this w)) = true ->
         Logger.pendingLogs (self this w') = []
         /\ exists request,
              fetches w' = fetches w ++ [request] /\ body_logs request = queued))
  /\ ((length queued < 10)%nat -> Logger.flushTimer (self this w) = None ->
      let t := fresh (dom (timers w)) in
      timers w !! t = None
      /\ timers w' = <[t := {| flushes := this; delay := 5000 |}]> (timers w)
      /\ Logger.flushTimer (self this w') = Some t
      /\ Logger.pendingLogs (self this w') = queued
      /\ fetches w' = fetches w
      /\ timeout_fires t w' = flushRemoteLogs this (set_timers (delete t) w'))
  /\ ((length queued < 10)%nat ->
      forall armed, Logger.flushTimer (self this w) = Some armed ->
      w' = set_pendingLogs this queued w
      /\ timers w' = timers w
      /\ Logger.flushTimer (self this w') = Some armed
      /\ Logger.pendingLogs (self this w') = queued
      /\ fetches w' = fetches w).
Proof.
  intros Hq queued w'. subst w'. unfold queueForRemote. rewrite Hq. cbn [negb].
  heap. fold queued.
  destruct (Z.geb_spec (Z.of_nat (length queued)) 10) as [Hge|Hlt].
  - split; [intros _ | split; intros; lia].
    set (w1 := set_pendingLogs this queued w).
    assert (Logger.pendingLogs (self this w1) = queued) as Hp by (subst w1; by heap).
    repeat split.
    + rewrite flushRemoteLogs_timers. destruct (Logger.flushTimer _); [|done].
      subst w1; heap. apply delete_subseteq.
    + apply flushRemoteLogs_flushTimer.
    + destruct (flushRemoteLogs_request this w1) as (Hf & Hp' & _).
      * rewrite Hp. subst queued. by destruct (Logger.pendingLogs _).
      * subst w1; by heap.
      * done.
    + destruct (flushRemoteLogs_request this w1) as (Hf & Hp' & _).
      * rewrite Hp. subst queued. by destruct (Logger.pendingLogs _).
      * subst w1; by heap.
      * eexists. split; [apply Hf|]. simpl. apply Hp.
  - split; [intros; lia|]. split.
    + intros _ Hnone. rewrite Hnone. heap.
      repeat split; try done.
      * apply fresh_unused.
      * unfold timeout_fires. heap. by rewrite lookup_insert_eq.
    + intros _ armed Harmed. rewrite Harmed. by heap.
Qed.
End Batching.

(** ** C4: a send that fails *)

Section Requeue.
Implicit Types (w : World) (this other : ref) (entry : LogEntry).

End Requeue.

(** ** What a logger holds, along a run *)

Section Holds.
Implicit Types (w : World) (this i j : ref) (entry e : LogEntry).

Lemma holds_same j w w' e :
  loggers w' !! j = loggers w !! j ->
  (forall k batch, suspended w' !! k = Some (AwaitFetch j batch) ->
                   suspended w !! k = Some (AwaitFetch j batch)) ->
  holds j w' e -> holds j w e.
Proof.
  intros Hl Hs [Hp | (k & batch & Hk & He)].
  - left. by rewrite !lookup_total_alt, Hl in *.
  - right. exists k, batch. eauto.
Qed.

Lemma holds_cancel_flushTimer i j w e :
  holds j (cancel_flushTimer i w) e -> holds j w e.
Proof.
  intros [Hp | (k & batch & Hk & He)].
  - left. destruct (decide (i = j)) as [->|Hne].
    + by rewrite cancel_flushTimer_self in Hp.
    + by rewrite cancel_flushTimer_other in Hp.
  - right. rewrite cancel_flushTimer_suspended in Hk. eauto.
Qed.

(** A flush moves the queue of its logger into a batch in flight. *)
Lemma holds_flushRemoteLogs i j w e :
  holds j (flushRemoteLogs i w) e -> holds j w e.
Proof.
  unfold flushRemoteLogs. destruct (_ || _); [apply holds_cancel_flushTimer|].
  rewrite cancel_flushTimer_self. heap.
  intros [Hp | (k & batch & Hk & He)]; apply holds_cancel_flushTimer with (i := i).
  - revert Hp. heap. destruct (decide (i = j)) as [->|Hne]; heap.
    + by intros ?%elem_of_nil.
    + by left.
  - revert Hk. heap.
    destruct (decide (fresh (dom (suspended (cancel_flushTimer i w))) = k)) as [<-|Hne].
    + rewrite lookup_insert_eq. intros [= -> <-].
      left. by rewrite cancel_flushTimer_self.
    + rewrite lookup_insert_ne by done. intros Hk. right. by exists k, batch.
Qed.

Lemma holds_queueForRemote i j entry w e :
  holds j (queueForRemote i entry w) e ->
  holds j w e \/ (i = j /\ shouldLogRemote i (level entry) w = true /\ e = entry).
Proof.
  unfold queueForRemote. destruct (shouldLogRemote i (level entry) w) eqn:Hq;
    cbn [negb]; [|by left].
  set (w1 := set_pendingLogs i (Logger.pendingLogs (self i w) ++ [entry]) w).
  assert (holds j w1 e -> holds j w e \/ (i = j /\ true = true /\ e = entry)) as Hpush.
  { intros [Hp | Hs]; [|by left; right].
    subst w1. revert Hp. destruct (decide (i = j)) as [->|Hne]; heap.
    - intros [?|He]%elem_of_app; [by left; left|].
      apply list_elem_of_singleton in He. by right.
    - by left; left. }
  intros H. apply Hpush.
  destruct (_ >=? 10); [by apply holds_flushRemoteLogs in H|].
  revert H. destruct (Logger.flushTimer (self i w1)); [done|].
  intros [Hp | Hs]; [left | by right].
  revert Hp. destruct (decide (i = j)) as [->|Hne]; by heap.
Qed.

Lemma holds_log i j (L : LogLevel) msg payload now w e :
  holds j (log i L msg payload now w) e ->
  holds j w e
  \/ (i = j /\ shouldLog j L w = true /\ shouldLogRemote j L w = true
      /\ e = formatEntry j L msg payload now w).
Proof.
  unfold log. destruct (shouldLog i L w) eqn:Hg; cbn [negb]; [|by left].
  set (entry := formatEntry i L msg payload now w).
  pose proof (before_queueForRemote i entry w) as (Hl & Hc & _). simpl in Hl, Hc.
  pose proof (logToConsole_heaps i entry w) as (_ & _ & _ & Hs1 & _).
  pose proof (storeLocally_suspended i entry (logToConsole i entry w)) as Hs2.
  set (w1 := storeLocally i entry (logToConsole i entry w)) in *.
  intros [H | (-> & Hq & ->)]%holds_queueForRemote.
  - left. apply (holds_same j w w1); [by rewrite Hl| |done].
    intros k batch. rewrite Hs2, Hs1. destruct (enableLocalStorage _); [|done].
    destruct (decide (fresh (dom (suspended w)) = k)) as [<-|Hne].
    + by rewrite lookup_insert_eq.
    + by rewrite lookup_insert_ne.
  - right. split_and!; try done.
    revert Hq. unfold shouldLogRemote. by rewrite Hl, Hc.
Qed.

Lemma holds_timeout_fires t j w e : holds j (timeout_fires t w) e -> holds j w e.
Proof.
  unfold timeout_fires. destruct (timers w !! t) as [cb|]; [|done].
  intros H%holds_flushRemoteLogs. by apply (holds_same j w (set_timers (delete t) w)).
Qed.

(** A rejected batch goes back to the queue of the logger that sent
    it; it was in flight for that logger. *)
Lemma holds_fetched k r j w e : holds j (flushRemoteLogs_fetched k r w) e -> holds j w e.
Proof.
  unfold flushRemoteLogs_fetched.
  destruct (suspended w !! k) as [[i batch| |]|] eqn:Hk; try done.
  assert (forall k' b, delete k (suspended w) !! k' = Some (AwaitFetch j b) ->
                       suspended w !! k' = Some (AwaitFetch j b)) as Hdel.
  { intros k' b. destruct (decide (k = k')) as [<-|Hne].
    - by rewrite lookup_delete_eq.
    - by rewrite lookup_delete_ne. }
  destruct r as [resp|exn]; cbn [await bind try_catch].
  - by apply holds_same.
  - intros [Hp | (k' & b & Hk' & He)].
    + revert Hp. destruct (decide (i = j)) as [->|Hne]; heap.
      * intros [?|?]%elem_of_app; [right; eauto | by left].
      * by left.
    + right. exists k', b. split; [|done]. apply Hdel. revert Hk'. by heap.
Qed.

Lemma holds_gotItem k o j w e : holds j (storeLocally_gotItem k o w) e -> holds j w e.
Proof.
  unfold storeLocally_gotItem.
  destruct (suspended w !! k) as [[| i entry |]|] eqn:Hk; try done.
  assert (forall k' b, delete k (suspended w) !! k' = Some (AwaitFetch j b) ->
                       suspended w !! k' = Some (AwaitFetch j b)) as Hdel.
  { intros k' b. destruct (decide (k = k')) as [<-|Hne].
    - by rewrite lookup_delete_eq.
    - by rewrite lookup_delete_ne. }
  destruct (storeLocally_try _ _ _ _); cbn [bind try_catch]; apply holds_same; try done.
  intros k' b. heap. destruct (decide (k = k')) as [<-|Hne].
  - by rewrite lookup_insert_eq.
  - rewrite lookup_insert_ne by done. apply Hdel.
Qed.

Lemma holds_setItem k o j w e : holds j (storeLocally_setItem k o w) e -> holds j w e.
Proof.
  unfold storeLocally_setItem.
  destruct (suspended w !! k) as [[| |value]|] eqn:Hk; try done.
  assert (forall k' b, delete k (suspended w) !! k' = Some (AwaitFetch j b) ->
                       suspended w !! k' = Some (AwaitFetch j b)) as Hdel.
  { intros k' b. destruct (decide (k = k')) as [<-|Hne].
    - by rewrite lookup_delete_eq.
    - by rewrite lookup_delete_ne. }
  destruct o; cbn [setItem await bind try_catch]; by apply holds_same.
Qed.

Lemma holds_withContext i label j w e :
  holds j (snd (withContext i label w)) e -> holds j w e.
Proof.
  unfold withContext. heap. intros [Hp | Hs]; [|by right].
  revert Hp. destruct (decide (fresh (dom (loggers w)) = j)) as [<-|Hne]; heap.
  - by intros ?%elem_of_nil.
  - by left.
Qed.

Lemma holds_configure i updates j w e :
  holds j (configure i updates w) e -> holds j w e.
Proof.
  unfold configure. heap. intros [Hp | Hs]; [left | by right].
  revert Hp. destruct (decide (i = j)) as [->|Hne]; by heap.
Qed.

Lemma holds_step ev j w e :
  holds j (step ev w) e -> holds j w e \/ e ∈ accepted j [ev] w.
Proof.
  destruct ev as [i L msg payload now| i label | i updates | updates | o | t | k r | k o | k o];
    cbn [step accepted]; rewrite ?app_nil_r.
  - intros [H | (-> & Hg & Hq & ->)]%holds_log; [by left | right].
    rewrite bool_decide_eq_true_2, Hg, Hq by done. by apply list_elem_of_singleton.
  - intros ?%holds_withContext. by left.
  - intros ?%holds_configure. by left.
  - by left.
  - unfold clearStoredLogs. destruct o; by left.
  - intros ?%holds_timeout_fires. by left.
  - intros ?%holds_fetched. by left.
  - intros ?%holds_gotItem. by left.
  - intros ?%holds_setItem. by left.
Qed.

End Holds.

(** ** C10: one queue and one timer per instance *)

Section Instances.
Implicit Types (w : World) (this other i j : ref) (entry : LogEntry).

Lemma cancel_flushTimer_others i j w :
  i <> j -> loggers (cancel_flushTimer i w) !! j = loggers w !! j.
Proof.
  intros. unfold cancel_flushTimer. destruct (Logger.flushTimer _); heap; [|done].
  by rewrite lookup_insert_ne.
Qed.



Lemma boot_holds_nothing h DEV j e : ~ holds j (boot h DEV) e.
Proof.
  intros [Hp | (k & batch & Hk & _)].
  - revert Hp. unfold boot. cbn [loggers].
    destruct (decide (logger = j)) as [<-|Hne].
    + rewrite lookup_total_singleton_eq. by intros ?%elem_of_nil.
    + rewrite lookup_total_singleton_ne by done. by intros ?%elem_of_nil.
  - unfold boot in Hk. cbn [suspended] in Hk. by rewrite lookup_empty in Hk.
Qed.

End Instances.

(** ** C3: derived loggers and [configure] *)

Section Configuration.
Implicit Types (w : World) (this R : ref).

(** C3 (as amended). [withContext] gives the derived logger the
    configuration object its origin holds at that moment, so both read
    the same values then, and a change made in place to that object
    ([updateLoggingConfig]) is read by both.  [configure] does not
    change the object: it binds the logger it is called on to a new
    object holding the merged values.  After [R.configure(updates)] the
    origin reads the merged values and the derived logger still reads
    the old ones; and the other way round. *)
Theorem configure_rebinds_only_its_logger R label updates w :
  is_Some (loggers w !! R) ->
  is_Some (configs w !! Logger.config (self R w)) ->
  let D := fst (withContext R label w) in
  let w1 := snd (withContext R label w) in
  D <> R
  /\ Logger.config (self D w1) = Logger.config (self R w1)
  /\ this_config D w1 = this_config R w
  /\ this_config R w1 = this_config R w
  /\ this_config R (configure R updates w1) = merge (this_config R w) updates
  /\ this_config D (configure R updates w1) = this_config R w
  /\ this_config D (configure D updates w1) = merge (this_config R w) updates
  /\ this_config R (configure D updates w1) = this_config R w
  /\ (Logger.config (self R w) = loggingConfig_ref ->
      this_config R (snd (updateLoggingConfig updates w1)) = merge (this_config R w) updates
      /\ this_config D (snd (updateLoggingConfig updates w1)) = merge (this_config R w) updates).
Proof.
  intros HR Hc D w1.
  assert (D <> R) as Hne.
  { intros Heq. apply elem_of_dom in HR. rewrite <- Heq in HR.
    by apply is_fresh in HR. }
  assert (fresh (dom (loggers w)) <> R) as Hne' by done.
  assert (fresh (dom (configs w)) <> Logger.config (self R w)) as Hfc.
  { intros Heq. apply elem_of_dom in Hc. rewrite <- Heq in Hc.
    by apply is_fresh in Hc. }
  assert (R <> fresh (dom (loggers w))) as Hne'' by done.
  assert (Logger.config (self R w) <> fresh (dom (configs w))) as Hfc' by done.
  subst D w1. unfold withContext, configure, updateLoggingConfig. heap.
  split_and!; try done.
  intros Href. rewrite Href. by heap.
Qed.
End Configuration.

(** ** C1: the gate of [log] and the three sinks *)

Section Log.
Implicit Types (w : World) (this other : ref) (entry : LogEntry).

Lemma flushRemoteLogs_suspended this w :
  suspended (flushRemoteLogs this w) = suspended w
  \/ exists batch,
       suspended (flushRemoteLogs this w)
       = <[fresh (dom (suspended w)) := AwaitFetch this batch]> (suspended w).
Proof.
  unfold flushRemoteLogs. destruct (_ || _); heap;
    rewrite cancel_flushTimer_suspended; eauto.
Qed.

Lemma queueForRemote_suspended this entry w :
  suspended (queueForRemote this entry w) = suspended w
  \/ exists batch,
       suspended (queueForRemote this entry w)
       = <[fresh (dom (suspended w)) := AwaitFetch this batch]> (suspended w).
Proof.
  unfold queueForRemote. destruct (negb _); [by left|].
  destruct (_ >=? 10).
  - apply (flushRemoteLogs_suspended this (set_pendingLogs this _ w)).
  - heap. destruct (Logger.flushTimer _); by left.
Qed.

Lemma queueForRemote_AsyncStorage this entry w :
  AsyncStorage (queueForRemote this entry w) = AsyncStorage w.
Proof.
  unfold queueForRemote. destruct (negb _); [done|].
  destruct (_ >=? 10).
  - unfold flushRemoteLogs. destruct (_ || _); heap;
      unfold cancel_flushTimer; by destruct (Logger.flushTimer _).
  - heap. by destruct (Logger.flushTimer _).
Qed.

(** C1. A leveled call whose level ranks below [config.minLevel]
    returns with the world as it was: nothing on the console, nothing
    asked of the store, nothing queued, no timer, no request.  Any
    other call builds one entry, [formatEntry(level, message, data)],
    and hands that same entry to [logToConsole], [storeLocally] and
    [queueForRemote], in this order; what each of them does with it is
    its own affair: the console gets the line if it is enabled, a read
    of the store is started for the entry if local storage is enabled
    (the store itself is not written within the call), and the remote
    sink takes the entry in if [shouldLogRemote] accepts its level. *)
Theorem log_gate_then_three_sinks this (L : LogLevel) msg payload now w :
  L <> LNone ->
  let entry := formatEntry this L msg payload now w in
  let w' := log this L msg payload now w in
  (LOG_LEVELS L < LOG_LEVELS (minLevel (this_config this w)) -> w' = w)
  /\ (LOG_LEVELS L >= LOG_LEVELS (minLevel (this_config this w)) ->
      w' = queueForRemote this entry (storeLocally this entry (logToConsole this entry w))
      /\ console w'
         = console w ++
             (if enableConsole (this_config this w)
              then [console_call L (formatConsoleMessage this entry w) (data entry)]
              else [])
      /\ (enableLocalStorage (this_config this w) = true ->
          suspended w' !! fresh (dom (suspended w)) = Some (AwaitGetItem this entry))
      /\ (enableLocalStorage (this_config this w) = false ->
          forall k other e,
            suspended w' !! k = Some (AwaitGetItem other e) ->
            suspended w !! k = Some (AwaitGetItem other e))
      /\ AsyncStorage w' = AsyncStorage w
      /\ remote_intake this w'
         = remote_intake this w ++ (if shouldLogRemote this L w then [entry] else [])).
Proof.
  intros HL entry w'. split.
  - intros Hlt. subst w'. unfold log, shouldLog.
    destruct (Z.geb_spec (LOG_LEVELS L) (LOG_LEVELS (minLevel (this_config this w))));
      [lia|done].
  - intros Hge.
    destruct (log_passing this L msg payload now w HL Hge) as [Hc Hr].
    fold entry w' in Hc, Hr.
    assert (w' = queueForRemote this entry
                   (storeLocally this entry (logToConsole this entry w))) as Hw.
    { subst w'. unfold log, shouldLog.
      destruct (Z.geb_spec (LOG_LEVELS L) (LOG_LEVELS (minLevel (this_config this w))));
        [done|lia]. }
    pose proof (logToConsole_heaps this entry w) as (Hl1 & Hc1 & _ & Hs1 & _ & Ha1).
    set (w1 := logToConsole this entry w) in *.
    pose proof (storeLocally_heaps this entry w1) as (_ & _ & _ & _ & _ & Ha2).
    pose proof (storeLocally_suspended this entry w1) as Hs2.
    rewrite Hl1, Hc1, Hs1 in Hs2.
    set (w2 := storeLocally this entry w1) in *.
    split_and!; try done.
    + intros Hen. rewrite Hen in Hs2. rewrite Hw.
      destruct (queueForRemote_suspended this entry w2) as [->|[batch ->]].
      * by rewrite Hs2, lookup_insert_eq.
      * rewrite lookup_insert_ne.
        -- by rewrite Hs2, lookup_insert_eq.
        -- intros Heq. pose proof (fresh_unused (suspended w2)) as Hf.
           rewrite Heq, Hs2, lookup_insert_eq in Hf. done.
    + intros Hen k other e. rewrite Hen in Hs2. rewrite Hw.
      destruct (queueForRemote_suspended this entry w2) as [->|[batch ->]].
      * by rewrite Hs2.
      * rewrite Hs2. destruct (decide (fresh (dom (suspended w)) = k)) as [<-|].
        -- by rewrite lookup_insert_eq.
        -- by rewrite lookup_insert_ne.
    + by rewrite Hw, queueForRemote_AsyncStorage, Ha2, Ha1.
Qed.
End Log.

(** ** C8: [logError] *)


(** ** The durable store *)

Lemma jsonClone_undefined v : jsonClone v = JUndefined -> v = JUndefined.
Proof. by destruct v. Qed.

(** Writing and reading back a value that was read back changes nothing. *)
Lemma jsonClone_idempotent v : jsonClone (jsonClone v) = jsonClone v.
Proof.
  induction v as [| | | | |items IH|fields IH] using JSValue_nested_ind; try done.
  - simpl. f_equal. rewrite map_map. apply map_ext_Forall.
    eapply Forall_impl; [exact IH|]. intros x Hx. cbv beta in Hx |- *.
    destruct (jsonClone x) eqn:Hc; try done; by rewrite Hx.
  - simpl. f_equal. induction IH as [|kv l Hkv _ IHl]; [done|].
    simpl. rewrite flat_map_app, IHl. f_equal.
    cbv beta in Hkv.
    destruct (jsonClone kv.2) eqn:Hc; try done; cbn [flat_map fst snd app];
      by rewrite Hkv.
Qed.

Lemma storedEntry_idempotent e : storedEntry (storedEntry e) = storedEntry e.
Proof. unfold storedEntry; simpl. by rewrite jsonClone_idempotent. Qed.

Section Store.
Implicit Types (w : World) (this : ref) (entry : LogEntry) (logs : list LogEntry).

Lemma keepRecent_map (f : LogEntry -> LogEntry) m logs :
  keepRecent m (map f logs) = map f (keepRecent m logs).
Proof.
  unfold keepRecent, slice. rewrite !length_map.
  destruct (_ >? m); [|done]. by rewrite skipn_map.
Qed.

(** With a capacity of at least one, what is kept is the last
    [maxStoredLogs] entries. *)
Lemma keepRecent_positive m logs :
  0 < m -> keepRecent m logs = lastn (Z.to_nat m) logs.
Proof.
  intros Hm. unfold keepRecent, slice, lastn.
  destruct (Z.gtb_spec (Z.of_nat (length logs)) m) as [Hgt|Hle].
  - destruct (Z.ltb_spec (- m) 0); [|lia]. f_equal. lia.
  - replace (length logs - Z.to_nat m)%nat with 0%nat by lia. done.
Qed.

(** With a capacity of zero, [slice(-0)] is [slice(0)]: all is kept. *)
Lemma keepRecent_zero logs : keepRecent 0 logs = logs.
Proof.
  unfold keepRecent, slice. destruct (Z.gtb _ _); [|done].
  change (- 0 <? 0) with false. cbv iota.
  assert (Z.to_nat ((- 0) `min` Z.of_nat (length logs)) = 0%nat) as -> by lia.
  reflexivity.
Qed.

(** One complete call of [storeLocally], local storage being enabled:
    the store is rewritten with the entry appended, or, when the stored
    text does not parse, the error goes to the console and the store
    is left alone. *)
Lemma append_enabled this entry w :
  enableLocalStorage (this_config this w) = true ->
  append this entry w
  = match parseStored (AsyncStorage w !! LOG_STORAGE_KEY) with
    | Normal logs =>
        set_AsyncStorage
          <[LOG_STORAGE_KEY :=
              stringifyLogs (keepRecent (maxStoredLogs (this_config this w)) (logs ++ [entry]))]> w
    | Throw e => storeLocally_catch e w
    end.
Proof.
  intros Hen. unfold append, storeLocally. rewrite Hen. cbn [negb].
  pose proof (fresh_unused (suspended w)) as Hk.
  set (k := fresh (dom (suspended w))) in *.
  unfold storeLocally_gotItem. heap. rewrite lookup_insert_eq.
  unfold storeLocally_try, getItem. heap. cbn [await bind].
  destruct (parseStored (AsyncStorage w !! LOG_STORAGE_KEY)) as [logs|e];
    cbn [bind try_catch].
  - unfold storeLocally_setItem. heap. rewrite lookup_insert_eq.
    unfold setItem. heap. cbn [await bind try_catch].
    unfold set_AsyncStorage, set_suspended, suspend. heap. f_equal.
    subst k. by rewrite !delete_insert_eq, !(delete_id _ _ Hk).
  - unfold storeLocally_setItem, storeLocally_catch, console_error. heap.
    rewrite delete_insert_eq, (delete_id _ _ Hk), Hk.
    unfold set_console, set_suspended, suspend. heap. f_equal.
    subst k. by rewrite !delete_insert_eq, !(delete_id _ _ Hk).
Qed.

Lemma append_disabled this entry w :
  enableLocalStorage (this_config this w) = false -> append this entry w = w.
Proof.
  intros Hen. unfold append, storeLocally. rewrite Hen. cbn [negb].
  unfold storeLocally_gotItem. rewrite fresh_unused.
  unfold storeLocally_setItem. by rewrite fresh_unused.
Qed.

Lemma getStoredLogs_done w :
  getStoredLogs Done w
  = match parseStored (AsyncStorage w !! LOG_STORAGE_KEY) with
    | Normal logs => logs
    | Throw _ => []
    end.
Proof. unfold getStoredLogs, getItem. cbn [await bind]. by destruct (parseStored _). Qed.

(** Sequential appends to a store that parses: the stored sequence
    after each of them, and a configuration that stays what it was. *)
Lemma appendAll_stored this entries : forall w logs,
  enableLocalStorage (this_config this w) = true ->
  parseStored (AsyncStorage w !! LOG_STORAGE_KEY) = Normal logs ->
  map storedEntry logs = logs ->
  let w' := appendAll this entries w in
  let kept :=
    fold_left (fun acc entry =>
                 keepRecent (maxStoredLogs (this_config this w)) (acc ++ [storedEntry entry]))
              entries logs in
  parseStored (AsyncStorage w' !! LOG_STORAGE_KEY) = Normal kept
  /\ map storedEntry kept = kept
  /\ loggers w' = loggers w /\ configs w' = configs w.
Proof.
  induction entries as [|entry entries IH]; intros w logs Hen Hparse Hfix; [done|].
  cbn [appendAll fold_left]. fold (appendAll this entries (append this entry w)).
  rewrite append_enabled by done. rewrite Hparse.
  set (m := maxStoredLogs (this_config this w)).
  set (w1 := set_AsyncStorage _ w).
  assert (stringifyLogs (keepRecent m (logs ++ [entry]))
          = LogsText (keepRecent m (logs ++ [storedEntry entry]))) as Htext.
  { unfold stringifyLogs. by rewrite <- keepRecent_map, map_app, Hfix. }
  destruct (IH w1 (keepRecent m (logs ++ [storedEntry entry]))) as (H1 & H2 & H3 & H4).
  - done.
  - subst w1. heap. by rewrite lookup_insert_eq, Htext.
  - rewrite <- keepRecent_map, map_app, Hfix. simpl.
    by rewrite storedEntry_idempotent.
  - by split_and!.
Qed.
End Store.

(** ** C2: the capacity of the store *)

Section Capacity.
Implicit Types (w : World) (this : ref) (entry : LogEntry) (logs : list LogEntry).

Lemma lastn_length {A} n (l : list A) : length (lastn n l) = Nat.min n (length l).
Proof. unfold lastn. rewrite length_drop. lia. Qed.

Lemma lastn_app {A} n (l k : list A) :
  lastn n (l ++ k) = lastn (n - length k) l ++ lastn n k.
Proof.
  unfold lastn. rewrite drop_app, length_app. f_equal.
  - destruct (decide (length k <= n)%nat).
    + f_equal. lia.
    + rewrite !drop_ge; [done| lia | lia].
  - f_equal. lia.
Qed.

Lemma lastn_lastn {A} n m (l : list A) :
  (n <= m)%nat -> lastn n (lastn m l) = lastn n l.
Proof.
  intros Hnm. unfold lastn. rewrite drop_drop, length_drop. f_equal. lia.
Qed.

Lemma lastn_map {A B} (f : A -> B) n (l : list A) :
  lastn n (map f l) = map f (lastn n l).
Proof. unfold lastn. by rewrite length_map, skipn_map. Qed.

Lemma lastn_app_ge {A} n (l k : list A) :
  (n <= length k)%nat -> lastn n (l ++ k) = lastn n k.
Proof.
  intros Hn. rewrite lastn_app. replace (n - length k)%nat with 0%nat by lia.
  unfold lastn at 1. by rewrite Nat.sub_0_r, drop_all.
Qed.

(** The store after the appends, for a capacity of at least one: the
    last [maxStoredLogs] of what was there and what was appended. *)
Lemma fold_keepRecent_positive m :
  0 < m -> forall (entries logs : list LogEntry), entries <> [] ->
  fold_left (fun acc entry => keepRecent m (acc ++ [entry])) entries logs
  = lastn (Z.to_nat m) (logs ++ entries).
Proof.
  intros Hm. induction entries as [|e entries IH]; intros logs Hne; [done|].
  simpl. destruct entries as [|e' entries].
  - simpl. by apply keepRecent_positive.
  - rewrite IH by done. rewrite keepRecent_positive by done.
    rewrite (lastn_app _ (lastn _ _)), lastn_lastn by lia.
    rewrite <- lastn_app. by rewrite <- app_assoc.
Qed.

Lemma fold_keepRecent_stored m (entries : list LogEntry) : forall logs,
  fold_left (fun acc entry => keepRecent m (acc ++ [storedEntry entry])) entries logs
  = fold_left (fun acc entry => keepRecent m (acc ++ [entry])) (map storedEntry entries) logs.
Proof. induction entries as [|e entries IH]; intros logs; [done|]. simpl. apply IH. Qed.

(** For a capacity of at least one the store does what the specification
    says: after sequential appends (at least one) it holds the last
    [maxStoredLogs] entries of the history, never more than
    [maxStoredLogs]; and after as many appends as the capacity or more,
    exactly the last [maxStoredLogs] appended entries, in their order. *)
Lemma appends_keep_the_most_recent this entries w logs :
  enableLocalStorage (this_config this w) = true ->
  0 < maxStoredLogs (this_config this w) ->
  parseStored (AsyncStorage w !! LOG_STORAGE_KEY) = Normal logs ->
  map storedEntry logs = logs ->
  entries <> [] ->
  let capacity := Z.to_nat (maxStoredLogs (this_config this w)) in
  let stored := getStoredLogs Done (appendAll this entries w) in
  stored = lastn capacity (logs ++ map storedEntry entries)
  /\ (length stored <= capacity)%nat
  /\ ((capacity <= length entries)%nat ->
      stored = map storedEntry (lastn capacity entries)).
Proof.
  intros Hen Hm Hparse Hfix Hne capacity stored.
  destruct (appendAll_stored this entries w logs Hen Hparse Hfix) as (Hs & _).
  assert (stored = lastn capacity (logs ++ map storedEntry entries)) as Hst.
  { subst stored. rewrite getStoredLogs_done, Hs.
    rewrite fold_keepRecent_stored, fold_keepRecent_positive; [done..|].
    by destruct entries. }
  split_and!; [done| |].
  - rewrite Hst, lastn_length. lia.
  - intros Hcap. rewrite Hst, lastn_app_ge by (by rewrite length_map).
    apply lastn_map.
Qed.

Lemma fold_keepRecent_zero (entries : list LogEntry) : forall logs,
  fold_left (fun acc entry => keepRecent 0 (acc ++ [entry])) entries logs
  = logs ++ entries.
Proof.
  induction entries as [|e entries IH]; intros logs; simpl; [by rewrite app_nil_r|].
  rewrite keepRecent_zero, IH. by rewrite <- app_assoc.
Qed.

(** C2, at capacity zero. With [maxStoredLogs] at 0 the bound of the
    specification is zero entries, but [logs.slice(-0)] is the whole
    array: starting from an empty store, sequential appends leave every
    entry in it, so the store outgrows its capacity at the first append
    and keeps growing. *)
Theorem zero_capacity_evicts_nothing this entries w :
  enableLocalStorage (this_config this w) = true ->
  maxStoredLogs (this_config this w) = 0 ->
  AsyncStorage w !! LOG_STORAGE_KEY = None ->
  getStoredLogs Done (appendAll this entries w) = map storedEntry entries
  /\ length (getStoredLogs Done (appendAll this entries w)) = length entries.
Proof.
  intros Hen Hzero Hempty.
  destruct (appendAll_stored this entries w [] Hen) as (Hs & _); [by rewrite Hempty|done|].
  assert (getStoredLogs Done (appendAll this entries w) = map storedEntry entries) as Hst.
  { by rewrite getStoredLogs_done, Hs, Hzero, fold_keepRecent_stored,
       fold_keepRecent_zero. }
  split; [done|]. by rewrite Hst, length_map.
Qed.
End Capacity.

(** ** C7: a store that does not parse *)

(** C7 (as amended). When the stored text is not JSON, the [try] block
    of [storeLocally] throws at [JSON.parse]; the [catch] reports the
    error on the console and the call ends there, without raising and
    without writing: the stored text is left as it was, and a read right
    after returns the empty sequence. *)
Theorem append_to_unparsable_store_writes_nothing this entry raw w :
  enableLocalStorage (this_config this w) = true ->
  AsyncStorage w !! LOG_STORAGE_KEY = Some (NotJson raw) ->
  raw <> EmptyString ->
  storeLocally_try this entry (getItem Done LOG_STORAGE_KEY w) w = Throw SyntaxError
  /\ append this entry w = storeLocally_catch SyntaxError w
  /\ console (append this entry w)
     = console w ++ [mkConsoleCall LError "Failed to store log:" (Some (ArgError SyntaxError))]
  /\ AsyncStorage (append this entry w) = AsyncStorage w
  /\ getStoredLogs Done (append this entry w) = [].
Proof.
  intros Hen Hraw Hne.
  assert (parseStored (AsyncStorage w !! LOG_STORAGE_KEY) = Throw SyntaxError) as Hp.
  { rewrite Hraw. simpl. unfold nonempty. by destruct (String.eqb_spec raw EmptyString). }
  assert (append this entry w = storeLocally_catch SyntaxError w) as Ha.
  { by rewrite append_enabled, Hp. }
  split_and!.
  - unfold storeLocally_try, getItem. cbn [await bind]. by rewrite Hp.
  - done.
  - by rewrite Ha.
  - by rewrite Ha.
  - rewrite getStoredLogs_done, Ha. unfold storeLocally_catch, console_error, set_console.
    cbn [AsyncStorage]. by rewrite Hp.
Qed.

(** ** C9: [exportLogs] *)

Section Exported.
Implicit Types (w : World) (log : LogEntry).

Lemma append_empty (s : string) : s +:+ EmptyString = s.
Proof.
  induction s as [|c s IH]; [done|].
  change (String c (s +:+ EmptyString) = String c s). by rewrite IH.
Qed.

(** One line per stored entry, oldest first, joined with newlines. *)
Lemma exportLogs_lines w logs :
  AsyncStorage w !! LOG_STORAGE_KEY = Some (LogsText logs) ->
  exportLogs Done w = join newline (map exportLine logs).
Proof. intros Hs. unfold exportLogs. by rewrite getStoredLogs_done, Hs. Qed.

Lemma truthy_stringifies v : truthy v = true -> is_Some (JSON_stringify v).
Proof. destruct v; simpl; try done; eauto. Qed.

(** The line of an entry whose data are truthy ends with a space and
    the JSON text of the data. *)
Lemma exportLine_truthy_data log :
  truthy (data log) = true ->
  exists json,
    JSON_stringify (data log) = Some json
    /\ exportLine log
       = timestamp log +:+ " [" +:+ toUpperCase (level_text (level log)) +:+ "] ["
         +:+ show_optional (context log) +:+ "] " +:+ message log +:+ " " +:+ json.
Proof.
  intros Ht. destruct (truthy_stringifies _ Ht) as [json Hj]. exists json.
  split; [done|]. unfold exportLine. by rewrite Ht, Hj.
Qed.

(** The line of an entry without data ends with the message. *)
Lemma exportLine_no_data log :
  data log = JUndefined ->
  exportLine log
  = timestamp log +:+ " [" +:+ toUpperCase (level_text (level log)) +:+ "] ["
    +:+ show_optional (context log) +:+ "] " +:+ message log.
Proof. intros Hd. unfold exportLine. rewrite Hd. simpl. by rewrite append_empty. Qed.

(** C9, on data that are there but falsy. An entry whose data are
    [null], [false], [0] or the empty string carries data
    ([formatEntry] attaches them and [logToConsole] prints them, both
    testing [data !== undefined]), but [exportLogs] tests [log.data] for
    truth: the line of such an entry has no data segment and is the
    line of the same entry without data. *)
Theorem exportLine_drops_falsy_data log :
  defined (data log) = true ->
  truthy (data log) = false ->
  exportLine log
  = timestamp log +:+ " [" +:+ toUpperCase (level_text (level log)) +:+ "] ["
    +:+ show_optional (context log) +:+ "] " +:+ message log
  /\ exportLine log
     = exportLine (mkEntry (timestamp log) (level log) (message log) (context log)
                           JUndefined (deviceInfo log)).
Proof.
  intros _ Hf. unfold exportLine. rewrite Hf. simpl. by rewrite append_empty.
Qed.
End Exported.

(** ** The claims on the sample worlds *)

(** C1, on the production configuration ([minLevel] is ['info']): a
    debug call changes nothing, a warning goes to the three sinks. *)
Lemma log_gate_then_three_sinks_witness :
  debug logger "x" JUndefined noon production = production
  /\ warn logger "x" JUndefined noon production
     = queueForRemote logger (formatEntry logger LWarn "x" JUndefined noon production)
         (storeLocally logger (formatEntry logger LWarn "x" JUndefined noon production)
            (logToConsole logger (formatEntry logger LWarn "x" JUndefined noon production)
               production)).
Proof.
  split.
  - apply (log_gate_then_three_sinks logger LDebug "x" JUndefined noon production).
    + discriminate.
    + vm_compute. reflexivity.
  - apply (log_gate_then_three_sinks logger LWarn "x" JUndefined noon production).
    + discriminate.
    + vm_compute. discriminate.
Defined.

(** C2, failing input: capacity zero, two appends to an empty store;
    both entries stay. *)
Lemma zero_capacity_evicts_nothing_witness :
  getStoredLogs Done (appendAll logger [error_entry "a"; error_entry "b"] no_capacity)
  = [error_entry "a"; error_entry "b"]
  /\ maxStoredLogs (this_config logger no_capacity) = 0.
Proof.
  split; [|reflexivity].
  apply (zero_capacity_evicts_nothing logger [error_entry "a"; error_entry "b"] no_capacity).
  - vm_compute. reflexivity.
  - vm_compute. reflexivity.
  - vm_compute. reflexivity.
Defined.

(** C3, counterexample: the singleton derives the API logger and is
    then configured to log errors only; the derived logger still reads
    ['debug']. *)
Lemma configure_is_not_seen_by_derived_logger :
  minLevel (this_config logger
              (configure logger (just_minLevel LError)
                 (snd (withContext logger "API" development))))
  = LError
  /\ minLevel (this_config (fst (withContext logger "API" development))
                 (configure logger (just_minLevel LError)
                    (snd (withContext logger "API" development))))
     = LDebug
  /\ this_config (fst (withContext logger "API" development))
       (configure logger (just_minLevel LError)
          (snd (withContext logger "API" development)))
     <> this_config logger
          (configure logger (just_minLevel LError)
             (snd (withContext logger "API" development))).
Proof. vm_compute. split_and!; [reflexivity | reflexivity | discriminate]. Qed.

Lemma configure_rebinds_only_its_logger_witness :
  this_config (fst (withContext logger "API" development))
    (configure logger (just_minLevel LError) (snd (withContext logger "API" development)))
  = this_config logger development.
Proof.
  apply (configure_rebinds_only_its_logger logger "API" (just_minLevel LError) development).
  - vm_compute. eexists. reflexivity.
  - vm_compute. eexists. reflexivity.
Defined.



(** C5, counterexample: the remote threshold is ['debug'] and remote
    logging is on, but [minLevel] is ['error']; an info call ranks at
    or above the remote threshold and is not queued. *)
Lemma remote_threshold_is_behind_the_gate :
  LOG_LEVELS LInfo >= LOG_LEVELS (remoteMinLevel (this_config logger errors_only_remote_all))
  /\ enableRemoteLogging (this_config logger errors_only_remote_all) = true
  /\ ~ reaches_remote logger
         (formatEntry logger LInfo "x" JUndefined noon errors_only_remote_all)
         errors_only_remote_all
         (info logger "x" JUndefined noon errors_only_remote_all).
Proof.
  split_and!.
  - vm_compute. discriminate.
  - vm_compute. reflexivity.
  - intros H. vm_compute in H. discriminate.
Qed.

Lemma sinks_filter_behind_the_gate_witness :
  reaches_remote logger (formatEntry logger LWarn "x" JUndefined noon production)
    production (warn logger "x" JUndefined noon production)
  /\ ~ reaches_console logger (formatEntry logger LWarn "x" JUndefined noon production)
         production (warn logger "x" JUndefined noon production).
Proof.
  assert (LWarn <> LNone) as HL by discriminate.
  destruct (sinks_filter_behind_the_gate logger LWarn "x" JUndefined noon production HL)
    as [Hc Hr].
  split.
  - apply Hr. vm_compute. split_and!; [reflexivity | discriminate | discriminate].
  - intros H. apply Hc in H. destruct H as [H _]. vm_compute in H. discriminate.
Defined.

(** C6: the first error of a production run arms the timer, the second
    leaves it, the tenth flushes. *)
Lemma queueForRemote_size_or_timer_witness :
  timers (queueForRemote logger (error_entry "a") production)
  = {[1%positive := {| flushes := logger; delay := 5000 |}]}
  /\ timers (queueForRemote logger (error_entry "c") two_queued) = timers two_queued
  /\ queueForRemote logger (error_entry "e") nine_queued
     = flushRemoteLogs logger
         (set_pendingLogs logger
            (Logger.pendingLogs (self logger nine_queued) ++ [error_entry "e"]) nine_queued).
Proof.
  split_and!.
  - destruct (queueForRemote_size_or_timer logger (error_entry "a") production)
      as (_ & H & _); [vm_compute; reflexivity|].
    destruct H as (_ & H & _); [vm_compute; lia | vm_compute; reflexivity |].
    rewrite H. vm_compute. reflexivity.
  - destruct (queueForRemote_size_or_timer logger (error_entry "c") two_queued)
      as (_ & _ & H); [vm_compute; reflexivity|].
    destruct (H ltac:(vm_compute; lia) 1%positive) as (_ & H' & _);
      [vm_compute; reflexivity|].
    exact H'.
  - destruct (queueForRemote_size_or_timer logger (error_entry "e") nine_queued)
      as (H & _); [vm_compute; reflexivity|].
    destruct H as (H & _); [vm_compute; lia|].
    exact H.
Defined.

(** C7, counterexample: the stored text is not JSON; after the append
    the read returns nothing and the text is still there. *)
Lemma append_to_unparsable_store_loses_the_entry :
  getStoredLogs Done (append logger zero_count unparsable_store) = []
  /\ AsyncStorage (append logger zero_count unparsable_store) !! LOG_STORAGE_KEY
     = Some (NotJson "{oops").
Proof. vm_compute. split; reflexivity. Qed.

Lemma append_to_unparsable_store_writes_nothing_witness :
  AsyncStorage (append logger zero_count unparsable_store) = AsyncStorage unparsable_store.
Proof.
  apply (append_to_unparsable_store_writes_nothing logger zero_count "{oops" unparsable_store).
  - vm_compute. reflexivity.
  - vm_compute. reflexivity.
  - discriminate.
Defined.



(** C9, failing input: the stored entry has the number zero as data;
    its exported line ends with the message. *)
Lemma exportLine_drops_falsy_data_witness :
  exportLine zero_count = "2024-05-01T12:00:00.000Z [INFO] [App] count"
  /\ defined (data zero_count) = true.
Proof.
  split; [|reflexivity].
  destruct (exportLine_drops_falsy_data zero_count) as [H _].
  - vm_compute. reflexivity.
  - vm_compute. reflexivity.
  - rewrite H. vm_compute. reflexivity.
Defined.


(** Scenario 3 of the specification: capacity 3, five appends. *)
Example scenario_capacity_three :
  getStoredLogs Done
    (appendAll logger
       [error_entry "e1"; error_entry "e2"; error_entry "e3"; error_entry "e4"; error_entry "e5"]
       (configure logger (just_maxStoredLogs 3) development))
  = [error_entry "e3"; error_entry "e4"; error_entry "e5"].
Proof. vm_compute. reflexivity. Qed.

(** Scenario 6 of the specification: the batch [a; b] is rejected, [c]
    is queued, and the next flush sends [a; b; c]. *)
Example scenario_rejected_batch :
  body_logs <$>
    last (fetches (flushRemoteLogs logger
                     (flushRemoteLogs_fetched 3 (Rejected NetworkError) third_queued)))
  = Some [error_entry "a"; error_entry "b"; error_entry "c"].
Proof. vm_compute. reflexivity. Qed.

(** An export of two stored entries, one with data. *)
Example export_two_lines :
  exportLogs Done
    (set_AsyncStorage
       <[LOG_STORAGE_KEY :=
           LogsText [mkEntry noon LWarn "slow" (Some "API") (JObj [("ms", JNum 1200)]) None;
                     zero_count]]> development)
  = "2024-05-01T12:00:00.000Z [WARN] [API] slow {" +:+ quote "ms" +:+ ":1200}" +:+ newline
    +:+ "2024-05-01T12:00:00.000Z [INFO] [App] count".
Proof. vm_compute. reflexivity. Qed.

(** * Further properties of the service *)

(** ** The remote queue *)

Section RemoteExtras.
Implicit Types (w : World) (this i j : ref) (entry e : LogEntry).

Lemma flushRemoteLogs_config_field i j w :
  Logger.config (self j (flushRemoteLogs i w)) = Logger.config (self j w).
Proof.
  destruct (decide (i = j)) as [->|Hne].
  - unfold flushRemoteLogs. destruct (_ || _); heap; by rewrite cancel_flushTimer_self.
  - by rewrite !lookup_total_alt, flushRemoteLogs_other.
Qed.

Lemma flushRemoteLogs_this_config i j w :
  this_config j (flushRemoteLogs i w) = this_config j w.
Proof. by rewrite flushRemoteLogs_config_field, flushRemoteLogs_configs. Qed.

Lemma queueForRemote_this_config i j entry w :
  this_config j (queueForRemote i entry w) = this_config j w.
Proof.
  unfold queueForRemote. destruct (negb _); [done|].
  destruct (_ >=? 10).
  - rewrite flushRemoteLogs_this_config. destruct (decide (i = j)) as [->|Hne]; by heap.
  - heap. destruct (Logger.flushTimer _); heap;
      destruct (decide (i = j)) as [->|Hne]; by heap.
Qed.

(** A flush disarms the timer of its logger: the field is cleared, the
    timer is no longer armed, and its firing, should the host still
    deliver it, does nothing. *)
Theorem flush_disarms_the_timer this t w :
  Logger.flushTimer (self this w) = Some t ->
  Logger.flushTimer (self this (flushRemoteLogs this w)) = None
  /\ timers (flushRemoteLogs this w) !! t = None
  /\ timeout_fires t (flushRemoteLogs this w) = flushRemoteLogs this w.
Proof.
  intros Ht.
  assert (timers (flushRemoteLogs this w) !! t = None) as Hgone.
  { rewrite flushRemoteLogs_timers, Ht. apply lookup_delete_eq. }
  split_and!; [apply flushRemoteLogs_flushTimer | done |].
  unfold timeout_fires. by rewrite Hgone.
Qed.

(** One accepted entry when no endpoint is configured. *)
Lemma queueForRemote_no_endpoint this entry w :
  shouldLogRemote this (level entry) w = true ->
  truthy_text (remoteEndpoint (this_config this w)) = false ->
  Logger.pendingLogs (self this (queueForRemote this entry w))
  = Logger.pendingLogs (self this w) ++ [entry]
  /\ fetches (queueForRemote this entry w) = fetches w
  /\ suspended (queueForRemote this entry w) = suspended w.
Proof.
  intros Hq He. unfold queueForRemote. rewrite Hq. cbn [negb].
  destruct (_ >=? 10).
  - rewrite flushRemoteLogs_idle by (right; by heap).
    rewrite cancel_flushTimer_self, cancel_flushTimer_fetches, cancel_flushTimer_suspended.
    by heap.
  - heap. destruct (Logger.flushTimer _); by heap.
Qed.

(** With remote logging enabled and no endpoint configured (absent or
    empty), nothing is ever sent and nothing is dropped: every accepted
    entry stays in the queue, which grows without bound, the size
    trigger included. *)
Theorem no_endpoint_queue_only_grows this entries : forall w,
  enableRemoteLogging (this_config this w) = true ->
  truthy_text (remoteEndpoint (this_config this w)) = false ->
  Forall (fun entry => LOG_LEVELS (level entry)
                       >= LOG_LEVELS (remoteMinLevel (this_config this w))) entries ->
  Logger.pendingLogs (self this (enqueueAll this entries w))
  = Logger.pendingLogs (self this w) ++ entries
  /\ fetches (enqueueAll this entries w) = fetches w
  /\ suspended (enqueueAll this entries w) = suspended w.
Proof.
  induction entries as [|entry entries IH]; intros w Hen He Hall.
  - cbn. by rewrite app_nil_r.
  - apply Forall_cons in Hall as [Hl Hall]. cbn [enqueueAll fold_left].
    fold (enqueueAll this entries (queueForRemote this entry w)).
    assert (shouldLogRemote this (level entry) w = true) as Hq.
    { unfold shouldLogRemote. rewrite Hen. cbn [andb]. apply Z.geb_le. lia. }
    destruct (queueForRemote_no_endpoint this entry w Hq He) as (Hp & Hf & Hs).
    destruct (IH (queueForRemote this entry w)) as (Hp' & Hf' & Hs').
    + by rewrite queueForRemote_this_config.
    + by rewrite queueForRemote_this_config.
    + by rewrite queueForRemote_this_config.
    + rewrite Hp', Hf', Hs', Hp, Hf, Hs. by rewrite <- app_assoc.
Qed.

(** Accepted entries that do not fill the queue to ten stay queued, in
    order, behind one armed timer; nothing is sent. *)
Lemma enqueueAll_below_ten this entries : forall w,
  Forall (fun entry => shouldLogRemote this (level entry) w = true) entries ->
  (length (Logger.pendingLogs (self this w)) + length entries < 10)%nat ->
  let w' := enqueueAll this entries w in
  Logger.pendingLogs (self this w') = Logger.pendingLogs (self this w) ++ entries
  /\ fetches w' = fetches w
  /\ suspended w' = suspended w
  /\ (forall other, this_config other w' = this_config other w)
  /\ match Logger.flushTimer (self this w), entries with
     | None, _ :: _ =>
         Logger.flushTimer (self this w') = Some (fresh (dom (timers w)))
         /\ timers w' = <[fresh (dom (timers w)) := {| flushes := this; delay := 5000 |}]>
                          (timers w)
     | _, _ =>
         Logger.flushTimer (self this w') = Logger.flushTimer (self this w)
         /\ timers w' = timers w
     end.
Proof.
  induction entries as [|entry entries IH]; intros w Hall Hlen.
  - cbn. rewrite app_nil_r. split_and!; try done. by destruct (Logger.flushTimer _).
  - apply Forall_cons in Hall as [Hq Hall]. cbn [length] in Hlen.
    cbn [enqueueAll fold_left].
    fold (enqueueAll this entries (queueForRemote this entry w)).
    set (w1 := queueForRemote this entry w).
    assert (Logger.pendingLogs (self this w1) = Logger.pendingLogs (self this w) ++ [entry]
            /\ fetches w1 = fetches w /\ suspended w1 = suspended w
            /\ match Logger.flushTimer (self this w) with
               | None => Logger.flushTimer (self this w1) = Some (fresh (dom (timers w)))
                         /\ timers w1 = <[fresh (dom (timers w)) :=
                                            {| flushes := this; delay := 5000 |}]> (timers w)
               | Some t => Logger.flushTimer (self this w1) = Some t /\ timers w1 = timers w
               end) as (Hp & Hf & Hs & Ht).
    { subst w1. unfold queueForRemote. rewrite Hq. cbn [negb]. heap.
      destruct (Z.geb_spec (Z.of_nat (length (Logger.pendingLogs (self this w) ++ [entry]))) 10)
        as [Hge|_].
      - rewrite length_app in Hge. simpl in Hge. lia.
      - destruct (Logger.flushTimer (self this w)) eqn:Hft; heap; by rewrite ?Hft. }
    assert (forall other, this_config other w1 = this_config other w) as Hc.
    { intros other. apply queueForRemote_this_config. }
    destruct (IH w1) as (Hp' & Hf' & Hs' & Hc' & Ht').
    + eapply Forall_impl; [exact Hall|]. intros x Hx. cbv beta in *.
      unfold shouldLogRemote in *. by rewrite Hc.
    + rewrite Hp, length_app. simpl. lia.
    + cbv zeta in *. rewrite Hp', Hf', Hs', Hp, Hf, Hs, <- app_assoc.
      split_and!; try done.
      * intros other. by rewrite Hc', Hc.
      * destruct (Logger.flushTimer (self this w)) as [t|].
        -- destruct Ht as [Ht1 Ht2]. rewrite Ht1 in Ht'.
           destruct Ht' as [-> ->]. by destruct entries.
        -- destruct Ht as [Ht1 Ht2]. rewrite Ht1 in Ht'.
           destruct Ht' as [-> ->]. by destruct entries.
Qed.
Lemma enqueueAll_snoc this entries entry w :
  enqueueAll this (entries ++ [entry]) w
  = queueForRemote this entry (enqueueAll this entries w).
Proof. unfold enqueueAll. by rewrite fold_left_app. Qed.

(** The size trigger, end to end. Accepted entries are queued one by
    one; the one that brings the queue to ten makes one request,
    within its call, that carries the whole queue in the order of
    queueing; the queue is then empty and no timer is left armed for
    the logger. *)
Theorem tenth_entry_sends_one_batch this entries final w :
  Forall (fun entry => shouldLogRemote this (level entry) w = true) (entries ++ [final]) ->
  truthy_text (remoteEndpoint (this_config this w)) = true ->
  (length (Logger.pendingLogs (self this w)) + length entries = 9)%nat ->
  let w' := enqueueAll this (entries ++ [final]) w in
  fetches w'
  = fetches w ++ [batch_request (this_config this w)
                    (Logger.pendingLogs (self this w) ++ entries ++ [final])]
  /\ Logger.pendingLogs (self this w') = []
  /\ Logger.flushTimer (self this w') = None
  /\ timers w' = match Logger.flushTimer (self this w) with
                 | Some t => delete t (timers w)
                 | None => timers w
                 end.
Proof.
  intros Hall He Hlen w'. subst w'. rewrite enqueueAll_snoc.
  apply Forall_app in Hall as [Hall Hfinal]. apply Forall_inv in Hfinal.
  destruct (enqueueAll_below_ten this entries w Hall) as (Hp & Hf & Hs & Hc & Ht); [lia|].
  set (w1 := enqueueAll this entries w) in *.
  assert (shouldLogRemote this (level final) w1 = true) as Hq.
  { unfold shouldLogRemote in *. by rewrite Hc. }
  unfold queueForRemote. rewrite Hq. cbn [negb]. heap.
  set (w2 := set_pendingLogs this (Logger.pendingLogs (self this w1) ++ [final]) w1).
  destruct (Z.geb_spec (Z.of_nat (length (Logger.pendingLogs (self this w1) ++ [final]))) 10)
    as [_|Hlt].
  2: { rewrite Hp, !length_app in Hlt. simpl in Hlt. lia. }
  assert (Logger.pendingLogs (self this w2)
          = Logger.pendingLogs (self this w) ++ entries ++ [final]) as Hp2.
  { subst w2. heap. by rewrite Hp, <- app_assoc. }
  assert (this_config this w2 = this_config this w) as Hc2.
  { subst w2. heap. apply Hc. }
  destruct (flushRemoteLogs_request this w2) as (Hreq & Hempty & _).
  { rewrite Hp2. by destruct (Logger.pendingLogs (self this w)), entries. }
  { by rewrite Hc2. }
  split_and!.
  - rewrite Hreq, Hp2, Hc2. subst w2. heap. by rewrite Hf.
  - done.
  - apply flushRemoteLogs_flushTimer.
  - rewrite flushRemoteLogs_timers. subst w2. heap.
    destruct (Logger.flushTimer (self this w)) as [t|] eqn:Hft.
    + by destruct Ht as [-> ->].
    + destruct entries as [|e0 entries].
      * by destruct Ht as [-> ->].
      * destruct Ht as [-> ->]. rewrite delete_insert_eq.
        apply delete_id, fresh_unused.
Qed.

(** The timer trigger, end to end. Fewer than ten accepted entries are
    queued behind the timer the first of them arms; when that timer
    fires, one request carries the whole queue in the order of
    queueing, the queue is emptied and no timer is left armed. *)
Theorem timer_sends_the_queue this entries w :
  Forall (fun entry => shouldLogRemote this (level entry) w = true) entries ->
  truthy_text (remoteEndpoint (this_config this w)) = true ->
  Logger.flushTimer (self this w) = None ->
  entries <> [] ->
  (length (Logger.pendingLogs (self this w)) + length entries < 10)%nat ->
  let w' := timeout_fires (fresh (dom (timers w))) (enqueueAll this entries w) in
  fetches (enqueueAll this entries w) = fetches w
  /\ fetches w'
     = fetches w ++ [batch_request (this_config this w)
                       (Logger.pendingLogs (self this w) ++ entries)]
  /\ Logger.pendingLogs (self this w') = []
  /\ Logger.flushTimer (self this w') = None
  /\ timers w' = timers w.
Proof.
  intros Hall He Hnone Hne Hlen w'. subst w'.
  destruct (enqueueAll_below_ten this entries w Hall Hlen) as (Hp & Hf & Hs & Hc & Ht).
  rewrite Hnone in Ht. destruct entries as [|e0 entries]; [done|].
  destruct Ht as [Hft Htm].
  set (w1 := enqueueAll this (e0 :: entries) w) in *.
  set (t := fresh (dom (timers w))) in *.
  unfold timeout_fires. rewrite Htm, lookup_insert_eq. cbn [flushes].
  set (w2 := set_timers (delete t) w1).
  assert (Logger.pendingLogs (self this w2)
          = Logger.pendingLogs (self this w) ++ e0 :: entries) as Hp2 by done.
  assert (this_config this w2 = this_config this w) as Hc2 by apply Hc.
  destruct (flushRemoteLogs_request this w2) as (Hreq & Hempty & _).
  { rewrite Hp2. by destruct (Logger.pendingLogs (self this w)). }
  { by rewrite Hc2. }
  split_and!; try done.
  - rewrite Hreq, Hp2, Hc2. subst w2. heap. by rewrite Hf.
  - apply flushRemoteLogs_flushTimer.
  - rewrite flushRemoteLogs_timers. subst w2. heap. rewrite Hft, Htm.
    rewrite delete_delete_eq, delete_insert_eq. apply delete_id, fresh_unused.
Qed.
End RemoteExtras.

(** ** Timers along a run *)

Section Timers.
Implicit Types (w : World) (this i j : ref) (entry e : LogEntry).

Lemma timers_match_same w w' :
  timers w' = timers w ->
  (forall j, Logger.flushTimer (self j w') = Logger.flushTimer (self j w)) ->
  timers_match w -> timers_match w'.
Proof.
  intros Ht Hf [H1 H2]. split.
  - intros t cb. rewrite Ht, Hf. apply H1.
  - intros j t. rewrite Ht, Hf. apply H2.
Qed.

Lemma flushTimer_set_pendingLogs i j logs w :
  Logger.flushTimer (self j (set_pendingLogs i logs w)) = Logger.flushTimer (self j w).
Proof. destruct (decide (i = j)) as [->|Hne]; by heap. Qed.

Lemma timers_match_cancel i w : timers_match w -> timers_match (cancel_flushTimer i w).
Proof.
  intros [H1 H2]. unfold cancel_flushTimer.
  destruct (Logger.flushTimer (self i w)) as [t|] eqn:Hi; [|done].
  pose proof (H2 i t Hi) as Hti. split.
  - intros t' cb. heap. destruct (decide (t = t')) as [<-|Hne].
    + by rewrite lookup_delete_eq.
    + rewrite lookup_delete_ne by done. intros Hcb.
      destruct (H1 t' cb Hcb) as [Hf Hd]. split; [|done].
      destruct (decide (i = flushes cb)) as [->|Hne']; heap; [congruence|done].
  - intros j t'. heap. destruct (decide (i = j)) as [->|Hne]; heap; [done|].
    intros Hj. pose proof (H2 j t' Hj) as Htj.
    rewrite lookup_delete_ne; [done|]. intros <-. congruence.
Qed.

Lemma flushRemoteLogs_other_flushTimer i j w :
  Logger.flushTimer (self j (flushRemoteLogs i w))
  = Logger.flushTimer (self j (cancel_flushTimer i w)).
Proof.
  unfold flushRemoteLogs. destruct (_ || _); [done|]. heap.
  apply flushTimer_set_pendingLogs.
Qed.

Lemma timers_match_flush i w : timers_match w -> timers_match (flushRemoteLogs i w).
Proof.
  intros H. apply (timers_match_same (cancel_flushTimer i w)).
  - unfold flushRemoteLogs. by destruct (_ || _).
  - intros j. apply flushRemoteLogs_other_flushTimer.
  - by apply timers_match_cancel.
Qed.

Lemma timers_match_queueForRemote i entry w :
  timers_match w -> timers_match (queueForRemote i entry w).
Proof.
  intros H. unfold queueForRemote. destruct (negb _); [done|].
  set (w1 := set_pendingLogs i (Logger.pendingLogs (self i w) ++ [entry]) w).
  assert (timers_match w1) as Hm1.
  { apply (timers_match_same w); [done| |done].
    intros j. apply flushTimer_set_pendingLogs. }
  destruct (_ >=? 10); [by apply timers_match_flush|].
  destruct (Logger.flushTimer (self i w1)) as [t|] eqn:Hi; [done|].
  destruct Hm1 as [H1 H2].
  pose proof (fresh_unused (timers w1)) as Hfresh.
  cbn [setTimeout]. set (t := fresh (dom (timers w1))) in *. split.
  - intros t' cb. heap. destruct (decide (t = t')) as [<-|Hne].
    + rewrite lookup_insert_eq. intros [= <-]. cbn [flushes delay]. by heap.
    + rewrite lookup_insert_ne by done. intros Hcb.
      destruct (H1 t' cb Hcb) as [Hf Hd]. split; [|done].
      destruct (decide (i = flushes cb)) as [->|Hne']; heap; [congruence|done].
  - intros j t'. heap. destruct (decide (i = j)) as [->|Hne]; heap.
    + intros [= <-]. by rewrite lookup_insert_eq.
    + intros Hj. pose proof (H2 j t' Hj) as Htj.
      rewrite lookup_insert_ne; [done|]. intros <-. congruence.
Qed.

Lemma timers_match_log i (L : LogLevel) msg payload now w :
  timers_match w -> timers_match (log i L msg payload now w).
Proof.
  intros H. unfold log. destruct (negb _); [done|].
  apply timers_match_queueForRemote.
  set (entry := formatEntry i L msg payload now w).
  pose proof (logToConsole_heaps i entry w) as (Hl & _ & _ & _ & Ht & _).
  pose proof (storeLocally_heaps i entry (logToConsole i entry w)) as (Hl' & _ & _ & _ & Ht' & _).
  apply (timers_match_same w); [by rewrite Ht', Ht| |done].
  intros j. by rewrite Hl', Hl.
Qed.

(** Under the invariant, a timer that fires does exactly what a call
    of [flushRemoteLogs] on its logger does. *)
Lemma timeout_fires_is_flush t cb w :
  timers_match w -> timers w !! t = Some cb ->
  timeout_fires t w = flushRemoteLogs (flushes cb) w.
Proof.
  intros [H1 _] Hcb. destruct (H1 t cb Hcb) as [Hf _].
  unfold timeout_fires. rewrite Hcb.
  assert (cancel_flushTimer (flushes cb) (set_timers (delete t) w)
          = cancel_flushTimer (flushes cb) w) as Hc.
  { unfold cancel_flushTimer. heap. rewrite Hf.
    unfold set_flushTimer, set_loggers, clearTimeout, set_timers. heap.
    by rewrite delete_delete_eq. }
  unfold flushRemoteLogs. by rewrite Hc.
Qed.

Lemma timers_match_step ev w : timers_match w -> timers_match (step ev w).
Proof.
  intros H.
  destruct ev as [i L msg payload now| i label | i updates | updates | o | t | k r | k o | k o];
    cbn [step].
  - by apply timers_match_log.
  - destruct H as [H1 H2]. unfold withContext. heap.
    pose proof (fresh_unused (loggers w)) as Hfresh.
    set (created := fresh (dom (loggers w))) in *.
    assert (Logger.flushTimer (self created w) = None) as Hnone.
    { by rewrite lookup_total_alt, Hfresh. }
    split.
    + intros t cb Hcb. destruct (H1 t cb Hcb) as [Hf Hd]. split; [|done].
      destruct (decide (created = flushes cb)) as [Heq|Hne]; heap; [|done].
      rewrite <- Heq in Hf. congruence.
    + intros j t. destruct (decide (created = j)) as [<-|Hne]; heap; [done|apply H2].
  - apply (timers_match_same w); [done| |done].
    intros j. unfold configure. heap. destruct (decide (i = j)) as [->|Hne]; by heap.
  - by apply (timers_match_same w).
  - apply (timers_match_same w); [|intros j|done];
      unfold clearStoredLogs; by destruct o.
  - destruct (timers w !! t) as [cb|] eqn:Hcb.
    + rewrite (timeout_fires_is_flush t cb) by done. by apply timers_match_flush.
    + unfold timeout_fires. by rewrite Hcb.
  - unfold flushRemoteLogs_fetched.
    destruct (suspended w !! k) as [[i batch| |]|]; try done.
    destruct r; cbn [await bind try_catch]; apply (timers_match_same w); try done.
    intros j. heap. apply flushTimer_set_pendingLogs.
  - unfold storeLocally_gotItem.
    destruct (suspended w !! k) as [[| i entry |]|]; try done.
    destruct (storeLocally_try _ _ _ _); cbn [bind try_catch];
      by apply (timers_match_same w).
  - unfold storeLocally_setItem.
    destruct (suspended w !! k) as [[| |value]|]; try done.
    destruct o; cbn [setItem await bind try_catch]; by apply (timers_match_same w).
Qed.

Lemma timers_match_run evs : forall w, timers_match w -> timers_match (run evs w).
Proof.
  induction evs as [|ev evs IH]; intros w H; [done|].
  cbn [run]. by apply IH, timers_match_step.
Qed.

Lemma timers_match_boot h DEV : timers_match (boot h DEV).
Proof.
  split.
  - intros t cb. unfold boot. cbn [timers]. by rewrite lookup_empty.
  - intros j t. unfold boot. cbn [loggers timers].
    destruct (decide (logger = j)) as [<-|Hne].
    + by rewrite lookup_total_singleton_eq.
    + by rewrite lookup_total_singleton_ne.
Qed.

(** Whatever the application calls and whatever fires or settles, in
    whatever order: every armed timer is the [flushTimer] of the logger
    it flushes, with delay 5000, and every [flushTimer] is armed.  So a
    logger never has two timers armed, no timer outlives the flush
    that cancels it, and a timer firing is the same as a flush of its
    logger. *)
Theorem one_timer_per_logger h DEV evs :
  let w := run evs (boot h DEV) in
  timers_match w
  /\ (forall t1 t2 cb1 cb2,
        timers w !! t1 = Some cb1 -> timers w !! t2 = Some cb2 ->
        flushes cb1 = flushes cb2 -> t1 = t2)
  /\ (forall t cb, timers w !! t = Some cb ->
        timeout_fires t w = flushRemoteLogs (flushes cb) w).
Proof.
  intros w.
  assert (timers_match w) as Hm by apply timers_match_run, timers_match_boot.
  split_and!; [done| |].
  - intros t1 t2 cb1 cb2 H1 H2 Heq. destruct Hm as [Hm _].
    destruct (Hm t1 cb1 H1) as [Hf1 _]. destruct (Hm t2 cb2 H2) as [Hf2 _].
    rewrite Heq in Hf1. congruence.
  - intros t cb Hcb. by apply timeout_fires_is_flush.
Qed.
End Timers.

(** ** What is sent, as long as nothing is reconfigured *)

Section Levels.
Implicit Types (w : World) (this i j : ref) (entry e : LogEntry) (r : Request).

Lemma this_config_set_pendingLogs i j logs w :
  this_config j (set_pendingLogs i logs w) = this_config j w.
Proof. destruct (decide (i = j)) as [->|Hne]; by heap. Qed.

Lemma log_this_config i j (L : LogLevel) msg payload now w :
  this_config j (log i L msg payload now w) = this_config j w.
Proof.
  unfold log. destruct (negb _); [done|]. rewrite queueForRemote_this_config.
  pose proof (before_queueForRemote i (formatEntry i L msg payload now w) w) as (Hl & Hc & _).
  simpl in Hl, Hc. by rewrite Hl, Hc.
Qed.

(** A step that is not a reconfiguration leaves every logger on the
    configuration it shares with the others. *)
Lemma shared_config_step c ev w :
  reconfigures ev = false ->
  (forall j, this_config j w = c) -> forall j, this_config j (step ev w) = c.
Proof.
  intros Hq Hc j.
  destruct ev as [i L msg payload now| i label | i updates | updates | o | t | k r | k o | k o];
    try discriminate Hq; cbn [step].
  - by rewrite log_this_config.
  - unfold withContext. heap.
    destruct (decide (fresh (dom (loggers w)) = j)) as [<-|Hne]; heap; [|done].
    destruct (decide (fresh (dom (loggers w)) = i)) as [<-|Hne']; heap; [|apply Hc].
    specialize (Hc (fresh (dom (loggers w)))).
    by rewrite (lookup_total_alt (loggers w)), fresh_unused in Hc.
  - unfold clearStoredLogs. destruct o; apply Hc.
  - unfold timeout_fires. destruct (timers w !! t); [|done].
    rewrite flushRemoteLogs_this_config. apply Hc.
  - unfold flushRemoteLogs_fetched.
    destruct (suspended w !! k) as [[i batch| |]|]; try done.
    destruct r; cbn [await bind try_catch]; [apply Hc|].
    rewrite this_config_set_pendingLogs. apply Hc.
  - unfold storeLocally_gotItem.
    destruct (suspended w !! k) as [[| i entry |]|]; try done.
    destruct (storeLocally_try _ _ _ _); cbn [bind try_catch]; apply Hc.
  - unfold storeLocally_setItem.
    destruct (suspended w !! k) as [[| |value]|]; try done.
    destruct o; cbn [setItem await bind try_catch]; apply Hc.
Qed.

(** The request a flush makes is not empty and carries what its logger
    then has in flight. *)
Lemma fetches_flushRemoteLogs i w r :
  r ∈ fetches (flushRemoteLogs i w) ->
  r ∈ fetches w
  \/ (body_logs r <> [] /\ forall e, e ∈ body_logs r -> holds i (flushRemoteLogs i w) e).
Proof.
  destruct (Logger.pendingLogs (self i w)) as [|e0 l] eqn:Hp;
    [|destruct (truthy_text (remoteEndpoint (this_config i w))) eqn:He].
  - rewrite flushRemoteLogs_idle by auto. rewrite cancel_flushTimer_fetches. by left.
  - destruct (flushRemoteLogs_request i w) as (Hf & _ & Hs); [by rewrite Hp|done|].
    rewrite Hf. intros [?|Hr%list_elem_of_singleton]%elem_of_app; [by left|right].
    subst r. cbn [body_logs]. split; [by rewrite Hp|].
    intros e He'. right. eauto.
  - rewrite flushRemoteLogs_idle by auto. rewrite cancel_flushTimer_fetches. by left.
Qed.

Lemma fetches_queueForRemote i entry w r :
  r ∈ fetches (queueForRemote i entry w) ->
  r ∈ fetches w
  \/ (body_logs r <> [] /\ forall e, e ∈ body_logs r -> holds i (queueForRemote i entry w) e).
Proof.
  unfold queueForRemote. destruct (negb _); [by left|].
  destruct (_ >=? 10).
  - intros [H|H]%fetches_flushRemoteLogs; [by left | by right].
  - heap. destruct (Logger.flushTimer _); by left.
Qed.

Lemma fetches_step ev w r :
  r ∈ fetches (step ev w) ->
  r ∈ fetches w
  \/ (body_logs r <> [] /\ exists j, forall e, e ∈ body_logs r -> holds j (step ev w) e).
Proof.
  destruct ev as [i L msg payload now| i label | i updates | updates | o | t | k r' | k o | k o];
    cbn [step].
  - unfold log. destruct (negb _); [by left|].
    pose proof (before_queueForRemote i (formatEntry i L msg payload now w) w) as (_ & _ & Hf & _).
    simpl in Hf. intros [H|[H1 H2]]%fetches_queueForRemote; [left; by rewrite <- Hf|].
    right. eauto.
  - by left.
  - by left.
  - by left.
  - unfold clearStoredLogs. destruct o; by left.
  - unfold timeout_fires. destruct (timers w !! t) as [cb|]; [|by left].
    intros [H|[H1 H2]]%fetches_flushRemoteLogs; [by left|]. right. eauto.
  - unfold flushRemoteLogs_fetched.
    destruct (suspended w !! k) as [[i batch| |]|]; try by left.
    destruct r'; cbn [await bind try_catch]; by left.
  - unfold storeLocally_gotItem.
    destruct (suspended w !! k) as [[| i entry |]|]; try by left.
    destruct (storeLocally_try _ _ _ _); cbn [bind try_catch]; by left.
  - unfold storeLocally_setItem.
    destruct (suspended w !! k) as [[| |value]|]; try by left.
    destruct o; cbn [setItem await bind try_catch]; by left.
Qed.

Lemma remote_filter_step c ev w :
  reconfigures ev = false ->
  (forall j, this_config j w = c) ->
  (forall j e, holds j w e -> passes_remote c e) ->
  (forall r e, r ∈ fetches w -> e ∈ body_logs r -> passes_remote c e) ->
  (forall j e, holds j (step ev w) e -> passes_remote c e)
  /\ (forall r e, r ∈ fetches (step ev w) -> e ∈ body_logs r -> passes_remote c e).
Proof.
  intros Hq Hc Hh Hf.
  assert (forall j e, holds j (step ev w) e -> passes_remote c e) as Hh'.
  { intros j e [H|H]%holds_step; [by eapply Hh|].
    destruct ev as [i L msg payload now| | | | | | | |]; cbn [accepted] in H;
      rewrite ?app_nil_r in H; try by apply elem_of_nil in H.
    destruct (bool_decide (i = j) && shouldLog j L w && shouldLogRemote j L w) eqn:Hb;
      [|by apply elem_of_nil in H].
    apply list_elem_of_singleton in H as ->.
    apply andb_prop in Hb as [_ Hb]. unfold shouldLogRemote in Hb. rewrite Hc in Hb.
    apply andb_prop in Hb as [Hen Hl]. split; [done|]. cbn [level formatEntry].
    apply Z.geb_le in Hl. lia. }
  split; [done|].
  intros r e [Hr|(_ & j & Hr)]%fetches_step He; [by eapply Hf|].
  eapply Hh', Hr, He.
Qed.

Lemma remote_filter_run c evs : forall w,
  Forall (fun ev => reconfigures ev = false) evs ->
  (forall j, this_config j w = c) ->
  (forall j e, holds j w e -> passes_remote c e) ->
  (forall r e, r ∈ fetches w -> e ∈ body_logs r -> passes_remote c e) ->
  (forall j, this_config j (run evs w) = c)
  /\ (forall j e, holds j (run evs w) e -> passes_remote c e)
  /\ (forall r e, r ∈ fetches (run evs w) -> e ∈ body_logs r -> passes_remote c e).
Proof.
  induction evs as [|ev evs IH]; intros w Hq Hc Hh Hf; [done|].
  apply Forall_cons in Hq as [Hev Hq]. cbn [run].
  destruct (remote_filter_step c ev w Hev Hc Hh Hf) as [Hh' Hf'].
  apply IH; try done. by apply shared_config_step.
Qed.

(** As long as no logger is reconfigured, every logger, derived ones
    included, reads the configuration the build started with, and
    every entry that is queued, in flight or in a request made has a
    level at or above its [remoteMinLevel], with remote logging
    enabled.  In a build whose configuration has remote logging
    disabled, nothing is queued and no request is made. *)
Theorem untouched_configuration_filters_every_batch h DEV evs :
  Forall (fun ev => reconfigures ev = false) evs ->
  let w := run evs (boot h DEV) in
  let c := loggingConfig DEV in
  (forall j, this_config j w = c)
  /\ (forall j e, holds j w e ->
        enableRemoteLogging c = true
        /\ LOG_LEVELS (level e) >= LOG_LEVELS (remoteMinLevel c))
  /\ (forall r e, r ∈ fetches w -> e ∈ body_logs r ->
        enableRemoteLogging c = true
        /\ LOG_LEVELS (level e) >= LOG_LEVELS (remoteMinLevel c))
  /\ (enableRemoteLogging c = false ->
        fetches w = [] /\ forall j, Logger.pendingLogs (self j w) = []).
Proof.
  intros Hq w c.
  destruct (remote_filter_run c evs (boot h DEV) Hq) as (Hc & Hh & Hf).
  - intros j. unfold boot. cbn [loggers configs].
    destruct (decide (logger = j)) as [<-|Hne].
    + rewrite lookup_total_singleton_eq. reflexivity.
    + rewrite (lookup_total_singleton_ne logger j) by done. reflexivity.
  - intros j e H. by apply boot_holds_nothing in H.
  - intros r e Hr. unfold boot in Hr. cbn [fetches] in Hr. by apply elem_of_nil in Hr.
  - split_and!; try done. intros Hoff. split.
    + destruct (fetches w) as [|r rs] eqn:Hw; [done|]. exfalso.
      assert (r ∈ fetches w) as Hr by (rewrite Hw; left).
      assert (Forall (fun ev0 => reconfigures ev0 = false) evs) as Hq' by done.
      clear Hw.
      (* the request is not empty *)
      assert (forall evs0 w0, (forall r0, r0 ∈ fetches w0 -> body_logs r0 <> []) ->
                forall r0, r0 ∈ fetches (run evs0 w0) -> body_logs r0 <> []) as Hnonempty.
      { induction evs0 as [|ev0 evs0 IH]; intros w0 H0; [done|]. cbn [run].
        apply IH. intros r0 [?|[? _]]%fetches_step; [by apply H0|done]. }
      assert (body_logs r <> []) as Hne.
      { apply (Hnonempty evs (boot h DEV)); [|done].
        intros r0 Hr0. unfold boot in Hr0. cbn [fetches] in Hr0. by apply elem_of_nil in Hr0. }
      destruct (body_logs r) as [|e l] eqn:Hb; [done|].
      destruct (Hf r e Hr) as [Hen _]; [rewrite Hb; left|]. congruence.
    + intros j. destruct (Logger.pendingLogs (self j w)) as [|e l] eqn:Hp; [done|].
      destruct (Hh j e) as [Hen _]; [|congruence].
      change (holds j w e). left. rewrite Hp. left.
Qed.
End Levels.

(** ** The durable store, further *)

Section StoreExtras.
Implicit Types (w : World) (this : ref) (entry : LogEntry) (logs : list LogEntry).

Lemma JSON_stringify_undefined v : JSON_stringify v = None -> v = JUndefined.
Proof. by destruct v. Qed.

(** The JSON text of a value read back is the JSON text of the value. *)
Lemma JSON_stringify_jsonClone v : JSON_stringify (jsonClone v) = JSON_stringify v.
Proof.
  induction v as [| | | | |items IH|fields IH] using JSValue_nested_ind; try done.
  - cbn [jsonClone JSON_stringify]. rewrite map_map.
    rewrite (map_ext_Forall _ (fun x => default "null" (JSON_stringify x))); [done|].
    eapply Forall_impl; [exact IH|]. intros x Hx. cbv beta in Hx |- *.
    destruct (jsonClone x) eqn:Hc; by rewrite <- Hx.
  - cbn [jsonClone JSON_stringify].
    match goal with
    | |- Some (_ +:+ join _ ?a +:+ _) = Some (_ +:+ join _ ?b +:+ _) =>
        assert (a = b) as ->; [|done]
    end.
    induction IH as [|kv l Hkv _ IHl]; [done|].
    cbn [flat_map]. rewrite flat_map_app, IHl. f_equal. cbv beta in Hkv.
    destruct (jsonClone kv.2) eqn:Hc; cbn [flat_map fst snd app];
      try (rewrite app_nil_r, <- Hkv; by cbn [JSON_stringify]).
    apply jsonClone_undefined in Hc. by rewrite Hc.
Qed.

Lemma truthy_jsonClone v : truthy (jsonClone v) = truthy v.
Proof. by destruct v. Qed.

(** The exported line of an entry does not change when the entry goes
    through the store. *)
Lemma exportLine_storedEntry entry : exportLine (storedEntry entry) = exportLine entry.
Proof.
  unfold exportLine, storedEntry. cbn [timestamp level message context data].
  by rewrite truthy_jsonClone, JSON_stringify_jsonClone.
Qed.

Lemma string_app_assoc (a b c : string) : (a +:+ b) +:+ c = a +:+ b +:+ c.
Proof.
  induction a as [|x a IH]; [done|].
  change (String x ((a +:+ b) +:+ c) = String x (a +:+ b +:+ c)). by rewrite IH.
Qed.

Lemma join_snoc sep (parts : list string) (p : string) :
  parts <> [] -> join sep (parts ++ [p]) = join sep parts +:+ sep +:+ p.
Proof.
  induction parts as [|q parts IH]; [done|]. intros _.
  destruct parts as [|q' parts]; [done|].
  change (q +:+ sep +:+ join sep ((q' :: parts) ++ [p])
          = (q +:+ sep +:+ join sep (q' :: parts)) +:+ sep +:+ p).
  rewrite IH by done. by rewrite !string_app_assoc.
Qed.

(** For a capacity that is not negative, what is kept after the push
    ends with the pushed entry. *)
Lemma keepRecent_keeps_pushed m logs entry :
  0 <= m -> exists n, keepRecent m (logs ++ [entry]) = drop n logs ++ [entry].
Proof.
  intros Hm. destruct (decide (m = 0)) as [->|Hne].
  - exists 0%nat. by rewrite keepRecent_zero.
  - rewrite keepRecent_positive by lia. rewrite lastn_app.
    exists (length logs - (Z.to_nat m - 1))%nat. f_equal.
    unfold lastn. cbn [length]. replace (1 - Z.to_nat m)%nat with 0%nat by lia. done.
Qed.

(** After an append to a store that parses, with a capacity that is
    not negative, a read returns a sequence whose last entry is the
    appended one (as JSON reads it back), preceded by stored entries in
    their order; the appended entry is never the one evicted. *)
Theorem appended_entry_is_read_back_last this entry w logs :
  enableLocalStorage (this_config this w) = true ->
  0 <= maxStoredLogs (this_config this w) ->
  parseStored (AsyncStorage w !! LOG_STORAGE_KEY) = Normal logs ->
  exists n,
    getStoredLogs Done (append this entry w)
    = map storedEntry (drop n logs) ++ [storedEntry entry].
Proof.
  intros Hen Hm Hp. rewrite append_enabled, Hp by done.
  destruct (keepRecent_keeps_pushed (maxStoredLogs (this_config this w)) logs entry Hm)
    as [n Hn].
  exists n. rewrite getStoredLogs_done. unfold set_AsyncStorage. cbn [AsyncStorage].
  rewrite lookup_insert_eq. unfold stringifyLogs. cbn [parseStored].
  by rewrite Hn, map_app.
Qed.

(** With a negative capacity [slice] counts from the front: an append
    to an empty store writes the empty sequence, the entry is lost. *)
Theorem negative_capacity_loses_the_entry this entry w :
  enableLocalStorage (this_config this w) = true ->
  maxStoredLogs (this_config this w) < 0 ->
  AsyncStorage w !! LOG_STORAGE_KEY = None ->
  AsyncStorage (append this entry w) !! LOG_STORAGE_KEY = Some (LogsText [])
  /\ getStoredLogs Done (append this entry w) = [].
Proof.
  intros Hen Hm Hs. rewrite append_enabled, Hs by done. cbn [parseStored].
  assert (keepRecent (maxStoredLogs (this_config this w)) ([] ++ [entry]) = []) as Hk.
  { unfold keepRecent, slice. cbn [app length].
    destruct (Z.gtb_spec (Z.of_nat 1) (maxStoredLogs (this_config this w))); [|lia].
    destruct (Z.ltb_spec (- maxStoredLogs (this_config this w)) 0); [lia|].
    apply drop_ge. cbn [length]. lia. }
  rewrite getStoredLogs_done. unfold set_AsyncStorage. cbn [AsyncStorage].
  rewrite lookup_insert_eq, Hk. done.
Qed.

(** [clearStoredLogs] empties the store whatever it held, a text that
    does not parse included: a read then returns nothing, the export
    is empty, and the next append is stored.  When the storage rejects
    the removal the store is left as it was. *)
Theorem clear_empties_and_repairs_the_store this entry w :
  enableLocalStorage (this_config this w) = true ->
  0 <= maxStoredLogs (this_config this w) ->
  getStoredLogs Done (clearStoredLogs Done w) = []
  /\ exportLogs Done (clearStoredLogs Done w) = EmptyString
  /\ getStoredLogs Done (append this entry (clearStoredLogs Done w)) = [storedEntry entry]
  /\ AsyncStorage (clearStoredLogs Failed w) = AsyncStorage w.
Proof.
  intros Hen Hm.
  assert (AsyncStorage (clearStoredLogs Done w) !! LOG_STORAGE_KEY = None) as Hnone.
  { unfold clearStoredLogs. cbn. apply lookup_delete_eq. }
  assert (getStoredLogs Done (clearStoredLogs Done w) = []) as Hget.
  { by rewrite getStoredLogs_done, Hnone. }
  split_and!; [done| |  |done].
  - unfold exportLogs. by rewrite Hget.
  - assert (0 <= maxStoredLogs (this_config this (clearStoredLogs Done w))) as Hm' by done.
    rewrite append_enabled, Hnone by done. cbn [parseStored].
    destruct (keepRecent_keeps_pushed _ [] entry Hm') as [n Hn].
    rewrite getStoredLogs_done. unfold set_AsyncStorage. cbn [AsyncStorage].
    rewrite lookup_insert_eq. unfold stringifyLogs. cbn [parseStored]. rewrite Hn.
    by destruct n.
Qed.

(** When the storage rejects the read, or rejects the write of a
    store that parses, the call of [storeLocally] ends without raising
    and without a trace in the store: the stored text is as it was,
    the error is on the console, once, and no activation is left
    waiting. *)
Theorem storage_failure_is_swallowed got set this entry w logs :
  enableLocalStorage (this_config this w) = true ->
  parseStored (AsyncStorage w !! LOG_STORAGE_KEY) = Normal logs ->
  got = Failed \/ set = Failed ->
  appendWith got set this entry w = storeLocally_catch StorageError w
  /\ AsyncStorage (appendWith got set this entry w) = AsyncStorage w
  /\ console (appendWith got set this entry w)
     = console w ++ [mkConsoleCall LError "Failed to store log:" (Some (ArgError StorageError))]
  /\ suspended (appendWith got set this entry w) = suspended w.
Proof.
  intros Hen Hp Hfail.
  assert (appendWith got set this entry w = storeLocally_catch StorageError w) as Ha.
  { unfold appendWith, storeLocally. rewrite Hen. cbn [negb].
    pose proof (fresh_unused (suspended w)) as Hk.
    unfold storeLocally_gotItem. heap. rewrite lookup_insert_eq.
    destruct got.
    - destruct Hfail as [?| ->]; [done|].
      unfold storeLocally_try, getItem. heap. cbn [await bind]. rewrite Hp.
      cbn [bind try_catch]. unfold storeLocally_setItem. heap. rewrite lookup_insert_eq.
      cbn [setItem await bind try_catch].
      unfold storeLocally_catch, console_error, set_console, set_suspended, suspend. heap.
      f_equal. by rewrite !delete_insert_eq, !(delete_id _ _ Hk).
    - unfold storeLocally_try, getItem. cbn [await bind try_catch].
      unfold storeLocally_setItem, storeLocally_catch, console_error. heap.
      rewrite delete_insert_eq, (delete_id _ _ Hk), Hk.
      unfold set_console, set_suspended, suspend. heap. f_equal.
      by rewrite !delete_insert_eq, !(delete_id _ _ Hk). }
  by rewrite Ha.
Qed.

Lemma World_eq w w' :
  host w = host w' -> configs w = configs w' -> loggers w = loggers w' ->
  console w = console w' -> AsyncStorage w = AsyncStorage w' ->
  timers w = timers w' -> fetches w = fetches w' -> suspended w = suspended w' ->
  w = w'.
Proof. destruct w, w'. cbn. by intros -> -> -> -> -> -> -> ->. Qed.

Lemma storeLocally_enabled this entry w :
  enableLocalStorage (this_config this w) = true ->
  storeLocally this entry w = suspend (AwaitGetItem this entry) w.
Proof. intros Hen. unfold storeLocally. by rewrite Hen. Qed.

(** The read settles on a store that parses: the write is asked for. *)
Lemma gotItem_done k this entry w logs :
  suspended w !! k = Some (AwaitGetItem this entry) ->
  parseStored (AsyncStorage w !! LOG_STORAGE_KEY) = Normal logs ->
  storeLocally_gotItem k Done w
  = set_suspended
      (fun s => <[k := AwaitSetItem
                         (stringifyLogs
                            (keepRecent (maxStoredLogs (this_config this w)) (logs ++ [entry])))]>
                  (delete k s)) w.
Proof.
  intros Hk Hp. unfold storeLocally_gotItem. rewrite Hk.
  unfold storeLocally_try, getItem. cbn [AsyncStorage set_suspended await bind].
  rewrite Hp. by cbn [bind try_catch].
Qed.

(** The write settles. *)
Lemma setItem_done k value w :
  suspended w !! k = Some (AwaitSetItem value) ->
  storeLocally_setItem k Done w
  = set_AsyncStorage <[LOG_STORAGE_KEY := value]> (set_suspended (delete k) w).
Proof. intros Hk. unfold storeLocally_setItem. by rewrite Hk. Qed.

(** Two calls of [storeLocally] that overlap, as two calls of [log] in
    a row do: both read the store before either writes, and the second
    write replaces the first.  The store ends as if the first entry had
    never been appended. *)
Theorem overlapping_appends_lose_the_first this first second w logs :
  enableLocalStorage (this_config this w) = true ->
  parseStored (AsyncStorage w !! LOG_STORAGE_KEY) = Normal logs ->
  overlapped this first second w = append this second w
  /\ AsyncStorage (overlapped this first second w) !! LOG_STORAGE_KEY
     = Some (stringifyLogs (keepRecent (maxStoredLogs (this_config this w)) (logs ++ [second]))).
Proof.
  intros Hen Hp.
  assert (overlapped this first second w = append this second w) as Ho.
  { rewrite append_enabled, Hp by done. unfold overlapped.
    pose proof (fresh_unused (suspended w)) as Hk1.
    set (k1 := fresh (dom (suspended w))) in *.
    rewrite (storeLocally_enabled this first w) by done.
    set (w1 := suspend (AwaitGetItem this first) w).
    assert (suspended w1 = <[k1 := AwaitGetItem this first]> (suspended w)) as Hs1 by done.
    pose proof (fresh_unused (suspended w1)) as Hk2.
    set (k2 := fresh (dom (suspended w1))) in *.
    rewrite (storeLocally_enabled this second w1) by done.
    set (w2 := suspend (AwaitGetItem this second) w1).
    assert (suspended w2 = <[k2 := AwaitGetItem this second]> (suspended w1)) as Hs2 by done.
    assert (k1 <> k2) as Hne.
    { intros Heq. rewrite Hs1, <- Heq, lookup_insert_eq in Hk2. done. }
    rewrite (gotItem_done k1 this first w2 logs);
      [|by rewrite Hs2, lookup_insert_ne, Hs1, lookup_insert_eq|done].
    set (v1 := stringifyLogs (keepRecent (maxStoredLogs (this_config this w2)) (logs ++ [first]))).
    set (w3 := set_suspended _ w2).
    assert (suspended w3 = <[k1 := AwaitSetItem v1]> (delete k1 (suspended w2))) as Hs3 by done.
    rewrite (gotItem_done k2 this second w3 logs);
      [|by rewrite Hs3, lookup_insert_ne, lookup_delete_ne, Hs2, lookup_insert_eq|done].
    set (v2 := stringifyLogs (keepRecent (maxStoredLogs (this_config this w3)) (logs ++ [second]))).
    set (w4 := set_suspended _ w3).
    assert (suspended w4 = <[k2 := AwaitSetItem v2]> (delete k2 (suspended w3))) as Hs4 by done.
    rewrite (setItem_done k1 v1 w4);
      [|by rewrite Hs4, lookup_insert_ne, lookup_delete_ne, Hs3, lookup_insert_eq].
    set (w5 := set_AsyncStorage _ (set_suspended (delete k1) w4)).
    assert (suspended w5 = delete k1 (suspended w4)) as Hs5 by done.
    rewrite (setItem_done k2 v2 w5);
      [|by rewrite Hs5, lookup_delete_ne, Hs4, lookup_insert_eq].
    assert (suspended w !! k2 = None) as Hk2'.
    { by rewrite Hs1, lookup_insert_ne in Hk2. }
    apply World_eq; try reflexivity.
    - cbn [AsyncStorage set_AsyncStorage set_suspended]. subst w5.
      cbn [AsyncStorage set_AsyncStorage set_suspended]. by rewrite insert_insert_eq.
    - cbn [suspended set_AsyncStorage set_suspended].
      rewrite Hs5, Hs4, Hs3, Hs2, Hs1.
      apply map_eq. intros k.
      destruct (decide (k = k2)) as [->|Hn2]; [by rewrite lookup_delete_eq|].
      rewrite lookup_delete_ne by done.
      destruct (decide (k = k1)) as [->|Hn1]; [by rewrite lookup_delete_eq|].
      rewrite lookup_delete_ne, lookup_insert_ne, lookup_delete_ne by done.
      rewrite lookup_insert_ne, lookup_delete_ne by done.
      by rewrite !lookup_insert_ne. }
  split; [done|]. rewrite Ho, append_enabled, Hp by done.
  unfold set_AsyncStorage. cbn [AsyncStorage]. by rewrite lookup_insert_eq.
Qed.

(** An append that evicts nothing adds one line to the export: the line
    of the appended entry, after a newline if the store was not
    empty. *)
Theorem append_adds_one_exported_line this entry w logs :
  enableLocalStorage (this_config this w) = true ->
  AsyncStorage w !! LOG_STORAGE_KEY = Some (LogsText logs) ->
  map storedEntry logs = logs ->
  Z.of_nat (length logs) < maxStoredLogs (this_config this w) ->
  exportLogs Done (append this entry w)
  = match logs with
    | [] => exportLine entry
    | _ :: _ => exportLogs Done w +:+ newline +:+ exportLine entry
    end.
Proof.
  intros Hen Hs Hfix Hm. rewrite append_enabled, Hs by done. cbn [parseStored].
  assert (keepRecent (maxStoredLogs (this_config this w)) (logs ++ [entry]) = logs ++ [entry])
    as Hk.
  { unfold keepRecent. rewrite length_app. cbn [length].
    destruct (Z.gtb_spec (Z.of_nat (length logs + 1)) (maxStoredLogs (this_config this w)));
      [lia|done]. }
  unfold exportLogs. rewrite !getStoredLogs_done, Hs. cbn [parseStored].
  unfold set_AsyncStorage. cbn [AsyncStorage]. rewrite lookup_insert_eq.
  unfold stringifyLogs. cbn [parseStored].
  rewrite Hk, !map_app, Hfix. cbn [map]. rewrite exportLine_storedEntry.
  destruct logs as [|l0 logs]; [done|]. by rewrite join_snoc.
Qed.
End StoreExtras.

(** ** A configured logger and the exported configuration *)

Section Frozen.
Implicit Types (w : World) (this i j : ref) (entry : LogEntry) (c : LoggingConfig).

Lemma keeps_configuration_refl w : keeps_configuration w w.
Proof. by split. Qed.

Lemma keeps_configuration_trans w1 w2 w3 :
  keeps_configuration w1 w2 -> keeps_configuration w2 w3 -> keeps_configuration w1 w3.
Proof.
  intros [Hc1 H1] [Hc2 H2]. split; [congruence|]. intros j.
  destruct (H1 j) as [Ha Hb]. destruct (H2 j) as [Ha' Hb']. split; [congruence|auto].
Qed.

Lemma keeps_configuration_same w w' :
  configs w' = configs w -> loggers w' = loggers w -> keeps_configuration w w'.
Proof. intros Hc Hl. split; [done|]. intros j. by rewrite Hl. Qed.

Lemma keeps_configuration_set_pendingLogs i logs w :
  keeps_configuration w (set_pendingLogs i logs w).
Proof.
  split; [done|]. intros j. split.
  - destruct (decide (i = j)) as [->|Hne]; by heap.
  - intros Hj. unfold set_pendingLogs. heap. apply lookup_insert_is_Some'. by right.
Qed.

Lemma keeps_configuration_set_flushTimer i t w :
  keeps_configuration w (set_flushTimer i t w).
Proof.
  split; [done|]. intros j. split.
  - destruct (decide (i = j)) as [->|Hne]; by heap.
  - intros Hj. unfold set_flushTimer. heap. apply lookup_insert_is_Some'. by right.
Qed.

Lemma keeps_configuration_cancel i w : keeps_configuration w (cancel_flushTimer i w).
Proof.
  unfold cancel_flushTimer. destruct (Logger.flushTimer (self i w)) as [t|];
    [|apply keeps_configuration_refl].
  apply (keeps_configuration_trans _ (clearTimeout t w));
    [by apply keeps_configuration_same | apply keeps_configuration_set_flushTimer].
Qed.

Lemma keeps_configuration_flush i w : keeps_configuration w (flushRemoteLogs i w).
Proof.
  unfold flushRemoteLogs.
  apply (keeps_configuration_trans _ (cancel_flushTimer i w));
    [apply keeps_configuration_cancel|].
  destruct (_ || _); [apply keeps_configuration_refl|].
  set (w1 := cancel_flushTimer i w).
  apply (keeps_configuration_trans _ (set_pendingLogs i [] w1));
    [apply keeps_configuration_set_pendingLogs | by apply keeps_configuration_same].
Qed.

Lemma keeps_configuration_queueForRemote i entry w :
  keeps_configuration w (queueForRemote i entry w).
Proof.
  unfold queueForRemote. destruct (negb _); [apply keeps_configuration_refl|].
  set (w1 := set_pendingLogs i _ w).
  apply (keeps_configuration_trans _ w1); [apply keeps_configuration_set_pendingLogs|].
  destruct (_ >=? 10); [apply keeps_configuration_flush|].
  destruct (Logger.flushTimer (self i w1)); [apply keeps_configuration_refl|].
  cbn [setTimeout].
  set (w2 := set_timers _ w1).
  apply (keeps_configuration_trans _ w2);
    [by apply keeps_configuration_same | apply keeps_configuration_set_flushTimer].
Qed.

Lemma keeps_configuration_log i (L : LogLevel) msg payload now w :
  keeps_configuration w (log i L msg payload now w).
Proof.
  unfold log. destruct (negb _); [apply keeps_configuration_refl|].
  set (entry := formatEntry i L msg payload now w).
  pose proof (before_queueForRemote i entry w) as (Hl & Hc & _). simpl in Hl, Hc.
  apply (keeps_configuration_trans _ (storeLocally i entry (logToConsole i entry w)));
    [by apply keeps_configuration_same | apply keeps_configuration_queueForRemote].
Qed.

Lemma keeps_configuration_timeout_fires t w : keeps_configuration w (timeout_fires t w).
Proof.
  unfold timeout_fires. destruct (timers w !! t) as [cb|]; [|apply keeps_configuration_refl].
  apply (keeps_configuration_trans _ (set_timers (delete t) w));
    [by apply keeps_configuration_same | apply keeps_configuration_flush].
Qed.

Lemma keeps_configuration_fetched k r w :
  keeps_configuration w (flushRemoteLogs_fetched k r w).
Proof.
  unfold flushRemoteLogs_fetched.
  destruct (suspended w !! k) as [[i batch|i entry|value]|];
    try apply keeps_configuration_refl.
  destruct r as [resp|e]; cbn [await bind try_catch].
  - by apply keeps_configuration_same.
  - apply (keeps_configuration_trans _ (set_suspended (delete k) w));
      [by apply keeps_configuration_same | apply keeps_configuration_set_pendingLogs].
Qed.

Lemma keeps_configuration_gotItem k o w :
  keeps_configuration w (storeLocally_gotItem k o w).
Proof.
  unfold storeLocally_gotItem.
  destruct (suspended w !! k) as [[i batch|i entry|value]|];
    try apply keeps_configuration_refl.
  destruct (storeLocally_try _ _ _ _); cbn [bind try_catch];
    by apply keeps_configuration_same.
Qed.

Lemma keeps_configuration_setItem k o w :
  keeps_configuration w (storeLocally_setItem k o w).
Proof.
  unfold storeLocally_setItem.
  destruct (suspended w !! k) as [[i batch|i entry|value]|];
    try apply keeps_configuration_refl.
  destruct o; cbn [setItem await bind try_catch]; by apply keeps_configuration_same.
Qed.

Lemma keeps_configuration_clearStoredLogs o w :
  keeps_configuration w (clearStoredLogs o w).
Proof. destruct o; by apply keeps_configuration_same. Qed.

Lemma holds_own_config_kept this c w w' :
  keeps_configuration w w' -> holds_own_config this c w -> holds_own_config this c w'.
Proof.
  intros [Hc Hk] (Hin & Hne & Hv). destruct (Hk this) as [Hf Hs].
  split_and!; [auto | by rewrite Hf | by rewrite Hf, Hc].
Qed.

(** No event other than [configure] on the logger itself changes what a
    logger bound to an object of its own reads. *)
Lemma holds_own_config_step this c ev w :
  configures this ev = false ->
  holds_own_config this c w -> holds_own_config this c (step ev w).
Proof.
  intros Hq H.
  destruct ev as [i L msg payload now| i label | i updates | updates | o | t | k r | k o | k o];
    cbn [step].
  - eapply holds_own_config_kept; [apply keeps_configuration_log|done].
  - destruct H as (Hin & Hne & Hv).
    assert (fresh (dom (loggers w)) <> this) as Hfresh.
    { intros Heq. apply elem_of_dom in Hin. rewrite <- Heq in Hin. by apply is_fresh in Hin. }
    unfold holds_own_config, withContext. heap.
    split_and!; [|done|done].
    by rewrite !lookup_insert_ne.
  - destruct H as (Hin & Hne & Hv). cbn [configures] in Hq.
    apply bool_decide_eq_false in Hq.
    assert (fresh (dom (configs w)) <> Logger.config (self this w)) as Hfresh.
    { intros Heq. assert (is_Some (configs w !! Logger.config (self this w))) as Hs by eauto.
      apply elem_of_dom in Hs. rewrite <- Heq in Hs. by apply is_fresh in Hs. }
    unfold holds_own_config, configure. heap.
    split_and!; [|done|].
    + by rewrite lookup_insert_ne.
    + by rewrite lookup_insert_ne.
  - destruct H as (Hin & Hne & Hv).
    unfold holds_own_config, updateLoggingConfig. heap.
    split_and!; [done|done|]. by rewrite lookup_insert_ne.
  - eapply holds_own_config_kept; [apply keeps_configuration_clearStoredLogs|done].
  - eapply holds_own_config_kept; [apply keeps_configuration_timeout_fires|done].
  - eapply holds_own_config_kept; [apply keeps_configuration_fetched|done].
  - eapply holds_own_config_kept; [apply keeps_configuration_gotItem|done].
  - eapply holds_own_config_kept; [apply keeps_configuration_setItem|done].
Qed.

Lemma holds_own_config_run this c evs : forall w,
  Forall (fun ev => configures this ev = false) evs ->
  holds_own_config this c w -> holds_own_config this c (run evs w).
Proof.
  induction evs as [|ev evs IH]; intros w Hq H; [done|].
  apply Forall_cons in Hq as [Hev Hq]. cbn [run]. by apply IH, holds_own_config_step.
Qed.

(** [configure] binds the logger to an object of its own. *)
Lemma configure_holds_own_config this updates w :
  is_Some (loggers w !! this) ->
  is_Some (configs w !! loggingConfig_ref) ->
  holds_own_config this (merge (this_config this w) updates) (configure this updates w).
Proof.
  intros Hin Href.
  assert (fresh (dom (configs w)) <> loggingConfig_ref) as Hfresh.
  { intros Heq. apply elem_of_dom in Href. rewrite <- Heq in Href. by apply is_fresh in Href. }
  unfold holds_own_config, configure. heap.
  split_and!; [|done|by rewrite lookup_insert_eq].
  apply lookup_insert_is_Some'. by left.
Qed.

(** Once [configure] has been called on a logger, even with no update
    at all, the logger reads an object of its own: whatever happens
    afterwards, short of another [configure] on the same logger, it
    reads the values it was given. [updateLoggingConfig] no longer
    reaches it, nor does [configure] on any other logger, derived from
    it or not. *)
Theorem configured_logger_ignores_later_updates this updates evs w :
  is_Some (loggers w !! this) ->
  is_Some (configs w !! loggingConfig_ref) ->
  Forall (fun ev => configures this ev = false) evs ->
  this_config this (run evs (configure this updates w)) = merge (this_config this w) updates
  /\ Logger.config (self this (run evs (configure this updates w))) <> loggingConfig_ref.
Proof.
  intros Hin Href Hq.
  destruct (holds_own_config_run this (merge (this_config this w) updates) evs
              (configure this updates w) Hq) as (_ & Hne & Hv).
  { by apply configure_holds_own_config. }
  split; [|done]. by apply lookup_total_correct.
Qed.
End Frozen.

(** ** Clearing during an append, and a batch that could not be sent *)

Section Races.
Implicit Types (w : World) (this i j : ref) (entry : LogEntry).

(** [clearStoredLogs] called while a call of [storeLocally] is between
    its read and its write: the store is empty after the removal, and
    the write that follows puts back everything the read had found,
    with the new entry.  The world ends as if the store had never been
    cleared. *)
Theorem clear_during_append_is_undone this entry w logs :
  enableLocalStorage (this_config this w) = true ->
  parseStored (AsyncStorage w !! LOG_STORAGE_KEY) = Normal logs ->
  let k := fresh (dom (suspended w)) in
  let read := storeLocally_gotItem k Done (storeLocally this entry w) in
  getStoredLogs Done (clearStoredLogs Done read) = []
  /\ clearedMeanwhile this entry w = append this entry w
  /\ getStoredLogs Done (clearedMeanwhile this entry w)
     = map storedEntry (keepRecent (maxStoredLogs (this_config this w)) (logs ++ [entry])).
Proof.
  intros Hen Hp k read.
  pose proof (fresh_unused (suspended w)) as Hk. fold k in Hk.
  assert (read = set_suspended
                   <[k := AwaitSetItem
                            (stringifyLogs
                               (keepRecent (maxStoredLogs (this_config this w)) (logs ++ [entry])))]>
                   w) as Hread.
  { subst read. rewrite (storeLocally_enabled this entry w) by done.
    rewrite (gotItem_done k this entry _ logs);
      [|unfold suspend; cbn [suspended set_suspended]; apply lookup_insert_eq|done].
    apply World_eq; try reflexivity.
    unfold suspend. cbn [suspended set_suspended]. fold k.
    by rewrite delete_insert_eq, (delete_id _ _ Hk). }
  assert (clearedMeanwhile this entry w = append this entry w) as Hsame.
  { rewrite append_enabled, Hp by done. unfold clearedMeanwhile. fold k. fold read.
    rewrite Hread. unfold clearStoredLogs. cbn [removeItem await bind try_catch].
    rewrite (setItem_done k (stringifyLogs
               (keepRecent (maxStoredLogs (this_config this w)) (logs ++ [entry]))));
      [|cbn [suspended set_suspended set_AsyncStorage]; apply lookup_insert_eq].
    apply World_eq; try reflexivity.
    - cbn [AsyncStorage set_suspended set_AsyncStorage]. apply insert_delete_eq.
    - cbn [suspended set_suspended set_AsyncStorage].
      by rewrite delete_insert_eq, (delete_id _ _ Hk). }
  split_and!; [|done|].
  - rewrite getStoredLogs_done. unfold clearStoredLogs.
    cbn [removeItem await bind try_catch AsyncStorage set_AsyncStorage].
    by rewrite lookup_delete_eq.
  - rewrite Hsame, append_enabled, Hp by done. rewrite getStoredLogs_done.
    cbn [AsyncStorage set_AsyncStorage]. by rewrite lookup_insert_eq.
Qed.

(** A request that could not be made, for a logger with no timer armed,
    in a world the service can reach: the batch goes back to the front
    of the queue and that is all.  No request is made, no timer is
    armed, and no timer that is armed sends the queue when it fires:
    nothing the service has scheduled will try again. *)
Theorem rejected_batch_is_not_retried h DEV evs k this batch err :
  let w := run evs (boot h DEV) in
  suspended w !! k = Some (AwaitFetch this batch) ->
  Logger.flushTimer (self this w) = None ->
  let w' := flushRemoteLogs_fetched k (Rejected err) w in
  Logger.pendingLogs (self this w') = batch ++ Logger.pendingLogs (self this w)
  /\ fetches w' = fetches w
  /\ timers w' = timers w
  /\ Logger.flushTimer (self this w') = None
  /\ forall t,
       Logger.pendingLogs (self this (timeout_fires t w'))
       = batch ++ Logger.pendingLogs (self this w).
Proof.
  intros w Hk Ht w'.
  assert (timers_match w) as Hm by apply timers_match_run, timers_match_boot.
  assert (w' = set_pendingLogs this (batch ++ Logger.pendingLogs (self this w))
                 (set_suspended (delete k) w)) as Hw'.
  { subst w'. unfold flushRemoteLogs_fetched. by rewrite Hk. }
  assert (Logger.pendingLogs (self this w') = batch ++ Logger.pendingLogs (self this w)) as Hp.
  { rewrite Hw'. by heap. }
  assert (Logger.flushTimer (self this w') = None) as Ht'.
  { rewrite Hw'. by heap. }
  assert (timers_match w') as Hm'.
  { change w' with (step (FetchSettles k (Rejected err)) w). by apply timers_match_step. }
  split_and!; [done|by rewrite Hw'|by rewrite Hw'|done|].
  intros t. destruct (timers w' !! t) as [cb|] eqn:Hcb.
  - rewrite (timeout_fires_is_flush t cb) by done.
    destruct Hm' as [H1 _]. destruct (H1 t cb Hcb) as [Hf _].
    assert (flushes cb <> this) as Hne by (intros Heq; congruence).
    by rewrite lookup_total_alt, flushRemoteLogs_other, <- lookup_total_alt.
  - unfold timeout_fires. by rewrite Hcb.
Qed.
End Races.

(** ** The token of the consumer app's API client *)

Section Token.
Implicit Types (s : Api.State) (o : Outcome) (token : option string).

Lemma setStoredToken_coherent o token s :
  Api.authToken s = Api.SecureStore s !! Api.TOKEN_KEY ->
  Api.authToken (Api.setStoredToken o token s)
  = Api.SecureStore (Api.setStoredToken o token s) !! Api.TOKEN_KEY.
Proof.
  intros H. unfold Api.setStoredToken.
  destruct token as [t|]; cbn [truthy_text]; [destruct (nonempty t)|]; destruct o; cbn;
    rewrite ?lookup_insert_eq, ?lookup_delete_eq; done.
Qed.

Lemma setAll_coherent calls : forall s,
  Api.authToken s = Api.SecureStore s !! Api.TOKEN_KEY ->
  Api.authToken (Api.setAll calls s) = Api.SecureStore (Api.setAll calls s) !! Api.TOKEN_KEY.
Proof.
  induction calls as [|[o token] calls IH]; intros s H; [done|].
  apply IH. by apply setStoredToken_coherent.
Qed.

Lemma setStoredToken_other_keys o token s key :
  key <> Api.TOKEN_KEY ->
  Api.SecureStore (Api.setStoredToken o token s) !! key = Api.SecureStore s !! key.
Proof.
  intros Hne. unfold Api.setStoredToken.
  destruct (truthy_text token); destruct o; cbn;
    rewrite ?lookup_insert_ne, ?lookup_delete_ne by done; done.
Qed.

Lemma setAll_other_keys calls key : forall s,
  key <> Api.TOKEN_KEY ->
  Api.SecureStore (Api.setAll calls s) !! key = Api.SecureStore s !! key.
Proof.
  induction calls as [|[o token] calls IH]; intros s Hne; [done|].
  cbn [Api.setAll fold_left fst snd]. fold (Api.setAll calls (Api.setStoredToken o token s)).
  rewrite IH by done. by apply setStoredToken_other_keys.
Qed.

(** Once the token has been read from the secure store at start-up,
    the variable [authToken] and the stored token stay the same
    through any sequence of calls of [setStoredToken], whether the
    store carries them out or rejects them: what the request
    interceptor would send is what [getStoredToken] returns and what a
    restart would read back.  The calls touch no other key of the
    store. *)
Theorem authToken_follows_the_secure_store store calls :
  let s := Api.setAll calls (Api.initialize Done (Api.loaded store)) in
  Api.authToken s = Api.SecureStore s !! Api.TOKEN_KEY
  /\ fst (Api.getStoredToken Done s) = Api.authToken s
  /\ Api.authToken (Api.initialize Done (Api.loaded (Api.SecureStore s))) = Api.authToken s
  /\ forall key, key <> Api.TOKEN_KEY -> Api.SecureStore s !! key = store !! key.
Proof.
  intros s.
  assert (Api.authToken s = Api.SecureStore s !! Api.TOKEN_KEY) as H.
  { apply setAll_coherent. reflexivity. }
  split_and!; [done|by rewrite H|by rewrite H|].
  intros key Hne. subst s. by rewrite setAll_other_keys.
Qed.
End Token.

(** ** From a call of [log] to the exported text *)

Section EndToEnd.
Implicit Types (w : World) (this : ref) (entry : LogEntry) (logs : list LogEntry).




End EndToEnd.

(** ** The size of the queues and of the batches *)

Section Bound.
Implicit Types (w : World) (this i j : ref) (entry : LogEntry) (c : LoggingConfig).

Lemma batches_bounded_same w w' :
  loggers w' = loggers w -> fetches w' = fetches w ->
  batches_bounded w -> batches_bounded w'.
Proof. intros Hl Hf [H1 H2]. split; [intros j|intros r]; rewrite ?Hl, ?Hf; auto. Qed.

Lemma batches_bounded_flush i w :
  batches_bounded w -> batches_bounded (flushRemoteLogs i w).
Proof.
  intros [H1 H2].
  destruct (Logger.pendingLogs (self i w)) as [|e0 l] eqn:Hp;
    [|destruct (truthy_text (remoteEndpoint (this_config i w))) eqn:He].
  - rewrite flushRemoteLogs_idle by auto. split.
    + intros j. destruct (decide (i = j)) as [<-|Hne].
      * rewrite cancel_flushTimer_self. cbn [Logger.pendingLogs]. rewrite Hp. cbn. lia.
      * rewrite cancel_flushTimer_other by done. apply H1.
    + intros r. rewrite cancel_flushTimer_fetches. apply H2.
  - assert (Logger.pendingLogs (self i w) <> []) as Hne by (by rewrite Hp).
    destruct (flushRemoteLogs_request i w Hne He) as (Hf & Hq & _). split.
    + intros j. destruct (decide (i = j)) as [<-|Hij].
      * rewrite Hq. cbn. lia.
      * rewrite lookup_total_alt, flushRemoteLogs_other, <- lookup_total_alt by done. apply H1.
    + intros r. rewrite Hf. intros [Hr | ->%list_elem_of_singleton]%elem_of_app; [by apply H2|].
      cbn [body_logs]. specialize (H1 i). lia.
  - rewrite flushRemoteLogs_idle by auto. split.
    + intros j. destruct (decide (i = j)) as [<-|Hne].
      * rewrite cancel_flushTimer_self. cbn [Logger.pendingLogs]. apply H1.
      * rewrite cancel_flushTimer_other by done. apply H1.
    + intros r. rewrite cancel_flushTimer_fetches. apply H2.
Qed.

Lemma batches_bounded_queueForRemote i entry w :
  sendable (this_config i w) ->
  batches_bounded w -> batches_bounded (queueForRemote i entry w).
Proof.
  intros Hs [H1 H2]. unfold queueForRemote.
  destruct (shouldLogRemote i (level entry) w) eqn:Hq; cbn [negb]; [|done].
  assert (truthy_text (remoteEndpoint (this_config i w)) = true) as He.
  { destruct Hs as [Hoff|He]; [|done]. unfold shouldLogRemote in Hq.
    by rewrite Hoff in Hq. }
  set (w1 := set_pendingLogs i (Logger.pendingLogs (self i w) ++ [entry]) w).
  assert (Logger.pendingLogs (self i w1) = Logger.pendingLogs (self i w) ++ [entry]) as Hp1
    by (subst w1; by heap).
  assert (forall j, i <> j -> self j w1 = self j w) as Ho1
    by (intros j Hne; subst w1; by heap).
  assert (this_config i w1 = this_config i w) as Hc1 by apply this_config_set_pendingLogs.
  destruct (Z.geb_spec (Z.of_nat (length (Logger.pendingLogs (self i w1)))) 10) as [Hge|Hlt].
  - assert (Logger.pendingLogs (self i w1) <> []) as Hne.
    { rewrite Hp1. by destruct (Logger.pendingLogs (self i w)). }
    destruct (flushRemoteLogs_request i w1 Hne) as (Hf & Hq' & _); [by rewrite Hc1|].
    split.
    + intros j. destruct (decide (i = j)) as [<-|Hij].
      * rewrite Hq'. cbn. lia.
      * rewrite lookup_total_alt, flushRemoteLogs_other, <- lookup_total_alt by done.
        rewrite Ho1 by done. apply H1.
    + intros r. rewrite Hf. intros [Hr | ->%list_elem_of_singleton]%elem_of_app; [by apply H2|].
      cbn [body_logs]. rewrite Hp1, length_app. cbn [length]. specialize (H1 i). lia.
  - assert (batches_bounded w1) as Hb1.
    { split; [|done]. intros j. destruct (decide (i = j)) as [<-|Hij]; [lia|].
      rewrite Ho1 by done. apply H1. }
    destruct (Logger.flushTimer (self i w1)); [done|]. cbn [setTimeout].
    set (w2 := set_timers _ w1).
    destruct Hb1 as [Hb1 Hb2]. split; [|done].
    intros j. destruct (decide (i = j)) as [<-|Hij]; heap; apply Hb1.
Qed.

Lemma batches_bounded_step c ev w :
  undisturbed ev = true ->
  sendable c ->
  (forall j, this_config j w = c) ->
  batches_bounded w -> batches_bounded (step ev w).
Proof.
  intros Hq Hs Hc Hb.
  destruct ev as [i L msg payload now| i label | i updates | updates | o | t | k r | k o | k o];
    try discriminate Hq; cbn [step].
  - unfold log. destruct (negb _); [done|].
    set (entry := formatEntry i L msg payload now w).
    pose proof (before_queueForRemote i entry w) as (Hl & Hcf & Hf & _).
    simpl in Hl, Hcf, Hf.
    apply batches_bounded_queueForRemote.
    + rewrite Hl, Hcf, Hc. exact Hs.
    + by apply (batches_bounded_same w).
  - destruct Hb as [H1 H2]. unfold withContext. heap. split; [|done].
    intros j. destruct (decide (fresh (dom (loggers w)) = j)) as [<-|Hne]; heap; [cbn; lia|].
    apply H1.
  - unfold clearStoredLogs. by destruct o.
  - unfold timeout_fires. destruct (timers w !! t); [|done].
    apply batches_bounded_flush. by apply (batches_bounded_same w).
  - unfold flushRemoteLogs_fetched.
    destruct (suspended w !! k) as [[i batch| |]|]; try done.
    destruct r; [|discriminate Hq]. cbn [await bind try_catch].
    by apply (batches_bounded_same w).
  - unfold storeLocally_gotItem.
    destruct (suspended w !! k) as [[| i entry |]|]; try done.
    destruct (storeLocally_try _ _ _ _); cbn [bind try_catch];
      by apply (batches_bounded_same w).
  - unfold storeLocally_setItem.
    destruct (suspended w !! k) as [[| |value]|]; try done.
    destruct o; cbn [setItem await bind try_catch]; by apply (batches_bounded_same w).
Qed.

Lemma undisturbed_reconfigures ev : undisturbed ev = true -> reconfigures ev = false.
Proof. by destruct ev. Qed.

Lemma batches_bounded_run c evs : forall w,
  Forall (fun ev => undisturbed ev = true) evs ->
  sendable c ->
  (forall j, this_config j w = c) ->
  batches_bounded w -> batches_bounded (run evs w).
Proof.
  induction evs as [|ev evs IH]; intros w Hq Hs Hc Hb; [done|].
  apply Forall_cons in Hq as [Hev Hq]. cbn [run]. apply IH; [done|done| |].
  - apply shared_config_step; [by apply undisturbed_reconfigures|done].
  - by apply (batches_bounded_step c).
Qed.

(** As long as the configuration the service starts with is not
    changed and no request fails to go out, no logger ever holds ten
    entries or more in its queue and no request carries more than ten:
    in a development build because nothing is queued, in a production
    build because the tenth entry is sent at once. *)
Theorem queues_and_batches_stay_bounded h DEV evs :
  Forall (fun ev => undisturbed ev = true) evs ->
  let w := run evs (boot h DEV) in
  (forall j, (length (Logger.pendingLogs (self j w)) < 10)%nat)
  /\ (forall r, r ∈ fetches w -> (length (body_logs r) <= 10)%nat).
Proof.
  intros Hq w.
  apply (batches_bounded_run (loggingConfig DEV) evs (boot h DEV)); [done| | |].
  - destruct DEV; [by left|by right].
  - intros j. unfold boot. cbn [loggers configs].
    destruct (decide (logger = j)) as [<-|Hne].
    + rewrite lookup_total_singleton_eq. reflexivity.
    + rewrite (lookup_total_singleton_ne logger j) by done. reflexivity.
  - split.
    + intros j. unfold boot. cbn [loggers].
      destruct (decide (logger = j)) as [<-|Hne].
      * rewrite lookup_total_singleton_eq. cbn. lia.
      * rewrite (lookup_total_singleton_ne logger j) by done. cbn. lia.
    + intros r Hr. unfold boot in Hr. cbn [fetches] in Hr. by apply elem_of_nil in Hr.
Qed.
End Bound.

(** ** The further properties on the sample worlds *)

(** Production with two errors queued: timer 1 is armed; a flush
    disarms it. *)
Lemma flush_disarms_the_timer_witness :
  Logger.flushTimer (self logger (flushRemoteLogs logger two_queued)) = None
  /\ timers (flushRemoteLogs logger two_queued) !! 1%positive = None
  /\ timeout_fires 1 (flushRemoteLogs logger two_queued) = flushRemoteLogs logger two_queued.
Proof.
  apply (flush_disarms_the_timer logger 1%positive two_queued).
  vm_compute. reflexivity.
Defined.

(** Remote logging switched on without an endpoint: two errors stay
    queued and nothing is sent. *)
Lemma no_endpoint_queue_only_grows_witness :
  Logger.pendingLogs
    (self logger (enqueueAll logger [error_entry "a"; error_entry "b"] remote_without_endpoint))
  = Logger.pendingLogs (self logger remote_without_endpoint)
    ++ [error_entry "a"; error_entry "b"]
  /\ fetches (enqueueAll logger [error_entry "a"; error_entry "b"] remote_without_endpoint)
     = fetches remote_without_endpoint
  /\ suspended (enqueueAll logger [error_entry "a"; error_entry "b"] remote_without_endpoint)
     = suspended remote_without_endpoint.
Proof.
  apply (no_endpoint_queue_only_grows logger [error_entry "a"; error_entry "b"]
           remote_without_endpoint).
  - vm_compute. reflexivity.
  - vm_compute. reflexivity.
  - repeat constructor; vm_compute; discriminate.
Defined.

(** Production: nine errors, then a tenth. *)
Lemma tenth_entry_sends_one_batch_witness :
  fetches (enqueueAll logger (replicate 9 (error_entry "e") ++ [error_entry "f"]) production)
  = fetches production
    ++ [batch_request (this_config logger production)
          (Logger.pendingLogs (self logger production)
           ++ replicate 9 (error_entry "e") ++ [error_entry "f"])]
  /\ Logger.pendingLogs
       (self logger
          (enqueueAll logger (replicate 9 (error_entry "e") ++ [error_entry "f"]) production))
     = []
  /\ Logger.flushTimer
       (self logger
          (enqueueAll logger (replicate 9 (error_entry "e") ++ [error_entry "f"]) production))
     = None
  /\ timers (enqueueAll logger (replicate 9 (error_entry "e") ++ [error_entry "f"]) production)
     = match Logger.flushTimer (self logger production) with
       | Some t => delete t (timers production)
       | None => timers production
       end.
Proof.
  apply (tenth_entry_sends_one_batch logger (replicate 9 (error_entry "e")) (error_entry "f")
           production).
  - repeat constructor; vm_compute; reflexivity.
  - vm_compute. reflexivity.
  - reflexivity.
Defined.

(** Production: two errors, then the timer. *)
Lemma timer_sends_the_queue_witness :
  fetches (enqueueAll logger [error_entry "a"; error_entry "b"] production) = fetches production
  /\ fetches (timeout_fires (fresh (dom (timers production)))
                (enqueueAll logger [error_entry "a"; error_entry "b"] production))
     = fetches production
       ++ [batch_request (this_config logger production)
             (Logger.pendingLogs (self logger production)
              ++ [error_entry "a"; error_entry "b"])]
  /\ Logger.pendingLogs
       (self logger
          (timeout_fires (fresh (dom (timers production)))
             (enqueueAll logger [error_entry "a"; error_entry "b"] production)))
     = []
  /\ Logger.flushTimer
       (self logger
          (timeout_fires (fresh (dom (timers production)))
             (enqueueAll logger [error_entry "a"; error_entry "b"] production)))
     = None
  /\ timers (timeout_fires (fresh (dom (timers production)))
               (enqueueAll logger [error_entry "a"; error_entry "b"] production))
     = timers production.
Proof.
  apply (timer_sends_the_queue logger [error_entry "a"; error_entry "b"] production).
  - repeat constructor; vm_compute; reflexivity.
  - vm_compute. reflexivity.
  - vm_compute. reflexivity.
  - discriminate.
  - vm_compute. lia.
Defined.

(** Production, one error sent on the timer, the configuration never
    touched: every logger reads the production configuration. *)
Lemma untouched_configuration_filters_every_batch_witness :
  this_config logger (run sent_on_timer (boot android false)) = loggingConfig false.
Proof.
  assert (Forall (fun ev => reconfigures ev = false) sent_on_timer) as H.
  { repeat constructor. }
  destruct (untouched_configuration_filters_every_batch android false sent_on_timer H)
    as (Hc & _).
  exact (Hc logger).
Defined.

(** Development, empty store: the appended entry is read back. *)
Lemma appended_entry_is_read_back_last_witness :
  exists n,
    getStoredLogs Done (append logger (error_entry "a") development)
    = map storedEntry (drop n []) ++ [storedEntry (error_entry "a")].
Proof.
  apply (appended_entry_is_read_back_last logger (error_entry "a") development []).
  - vm_compute. reflexivity.
  - vm_compute. discriminate.
  - vm_compute. reflexivity.
Defined.

(** Capacity -1, empty store: the append writes the empty sequence. *)
Lemma negative_capacity_loses_the_entry_witness :
  AsyncStorage (append logger (error_entry "a") negative_capacity) !! LOG_STORAGE_KEY
  = Some (LogsText [])
  /\ getStoredLogs Done (append logger (error_entry "a") negative_capacity) = [].
Proof.
  apply (negative_capacity_loses_the_entry logger (error_entry "a") negative_capacity).
  - vm_compute. reflexivity.
  - vm_compute. reflexivity.
  - vm_compute. reflexivity.
Defined.

(** Development with a store that is not JSON: cleared, it takes
    entries again. *)
Lemma clear_empties_and_repairs_the_store_witness :
  getStoredLogs Done (clearStoredLogs Done unparsable_store) = []
  /\ exportLogs Done (clearStoredLogs Done unparsable_store) = EmptyString
  /\ getStoredLogs Done (append logger (error_entry "a") (clearStoredLogs Done unparsable_store))
     = [storedEntry (error_entry "a")]
  /\ AsyncStorage (clearStoredLogs Failed unparsable_store) = AsyncStorage unparsable_store.
Proof.
  apply (clear_empties_and_repairs_the_store logger (error_entry "a") unparsable_store).
  - vm_compute. reflexivity.
  - vm_compute. discriminate.
Defined.

(** Development, the read rejected: nothing is written. *)
Lemma storage_failure_is_swallowed_witness :
  AsyncStorage (appendWith Failed Done logger (error_entry "a") development)
  = AsyncStorage development.
Proof.
  destruct (storage_failure_is_swallowed Failed Done logger (error_entry "a") development [])
    as (_ & Hs & _).
  - vm_compute. reflexivity.
  - vm_compute. reflexivity.
  - left. reflexivity.
  - exact Hs.
Defined.

(** Development, two errors logged in a row: only the second is
    stored. *)
Lemma overlapping_appends_lose_the_first_witness :
  overlapped logger (error_entry "a") (error_entry "b") development
  = append logger (error_entry "b") development
  /\ AsyncStorage (overlapped logger (error_entry "a") (error_entry "b") development)
       !! LOG_STORAGE_KEY
     = Some (stringifyLogs
               (keepRecent (maxStoredLogs (this_config logger development))
                  ([] ++ [error_entry "b"]))).
Proof.
  apply (overlapping_appends_lose_the_first logger (error_entry "a") (error_entry "b")
           development []).
  - vm_compute. reflexivity.
  - vm_compute. reflexivity.
Defined.

(** One entry stored, a second appended: one more line. *)
Lemma append_adds_one_exported_line_witness :
  exportLogs Done (append logger (error_entry "b") one_stored)
  = exportLogs Done one_stored +:+ newline +:+ exportLine (error_entry "b").
Proof.
  apply (append_adds_one_exported_line logger (error_entry "b") one_stored [error_entry "a"]).
  - vm_compute. reflexivity.
  - vm_compute. reflexivity.
  - vm_compute. reflexivity.
  - vm_compute. reflexivity.
Defined.

(** Capacity two, three appends: the last two are kept. *)
Lemma appends_keep_the_most_recent_witness :
  getStoredLogs Done
    (appendAll logger [error_entry "a"; error_entry "b"; error_entry "c"] capacity_two)
  = map storedEntry (lastn 2 [error_entry "a"; error_entry "b"; error_entry "c"]).
Proof.
  destruct (appends_keep_the_most_recent logger
              [error_entry "a"; error_entry "b"; error_entry "c"] capacity_two [])
    as (_ & _ & H).
  - vm_compute. reflexivity.
  - vm_compute. reflexivity.
  - vm_compute. reflexivity.
  - reflexivity.
  - discriminate.
  - apply H. vm_compute. lia.
Defined.

(** The singleton configured with no update at all, then the exported
    configuration silenced: the singleton still reads ['debug']. *)
Lemma configured_logger_ignores_later_updates_witness :
  this_config logger
    (run [CallUpdateLoggingConfig (just_minLevel LNone)] (configure logger noUpdates development))
  = merge (this_config logger development) noUpdates
  /\ Logger.config
       (self logger
          (run [CallUpdateLoggingConfig (just_minLevel LNone)]
             (configure logger noUpdates development)))
     <> loggingConfig_ref.
Proof.
  apply (configured_logger_ignores_later_updates logger noUpdates
           [CallUpdateLoggingConfig (just_minLevel LNone)] development).
  - vm_compute. eexists. reflexivity.
  - vm_compute. eexists. reflexivity.
  - repeat constructor.
Defined.

(** Development, the store cleared between the read and the write of
    an append. *)
Lemma clear_during_append_is_undone_witness :
  clearedMeanwhile logger (error_entry "b") one_stored = append logger (error_entry "b") one_stored.
Proof.
  destruct (clear_during_append_is_undone logger (error_entry "b") one_stored [error_entry "a"])
    as (_ & H & _).
  - vm_compute. reflexivity.
  - vm_compute. reflexivity.
  - exact H.
Defined.

(** Production, one error sent on the timer, the request failing to go
    out: the error is queued again and no timer is armed. *)
Lemma rejected_batch_is_not_retried_witness :
  Logger.pendingLogs
    (self logger
       (flushRemoteLogs_fetched 2 (Rejected NetworkError) (run sent_on_timer (boot android false))))
  = [error_entry "a"]
    ++ Logger.pendingLogs (self logger (run sent_on_timer (boot android false))).
Proof.
  destruct (rejected_batch_is_not_retried android false sent_on_timer 2%positive logger
              [error_entry "a"] NetworkError) as (H & _).
  - vm_compute. reflexivity.
  - vm_compute. reflexivity.
  - exact H.
Defined.


(** The same call, evaluated: the stored text exports as one line. *)
Example exported_line_of_a_count :
  exportLogs Done
    (run [CallLog logger LInfo "count" (JNum 7) noon;
          GetItemSettles 1 Done; SetItemSettles 1 Done] development)
  = "2024-05-01T12:00:00.000Z [INFO] [App] count 7".
Proof. vm_compute. reflexivity. Qed.

(** The token of the consumer app: a sign-in, a sign-out the store
    rejects, and what is left. *)
Example rejected_sign_out_keeps_the_token :
  Api.authToken
    (Api.setAll [(Done, Some "t1"); (Failed, None)] (Api.initialize Done (Api.loaded ∅)))
  = Some "t1"
  /\ Api.SecureStore
       (Api.setAll [(Done, Some "t1"); (Failed, None)] (Api.initialize Done (Api.loaded ∅)))
       !! Api.TOKEN_KEY
     = Some "t1".
Proof. vm_compute. split; reflexivity. Qed.

(** Production, one error sent on the timer: the queue is short. *)
Lemma queues_and_batches_stay_bounded_witness :
  (length (Logger.pendingLogs (self logger (run sent_on_timer (boot android false)))) < 10)%nat.
Proof.
  assert (Forall (fun ev => undisturbed ev = true) sent_on_timer) as H.
  { repeat constructor. }
  destruct (queues_and_batches_stay_bounded android false sent_on_timer H) as (Hq & _).
  exact (Hq logger).
Defined.

(** What the bound leaves out: ten errors sent at once, an eleventh
    queued, the request failing to go out; the queue then holds
    eleven. *)
Example rejected_batch_outgrows_ten :
  length
    (Logger.pendingLogs
       (self logger
          (flushRemoteLogs_fetched 11 (Rejected NetworkError)
             (Nat.iter 11 (error logger "e" JUndefined noon) production))))
  = 11%nat.
Proof. vm_compute. reflexivity. Qed.
